(** * WebServer thread pool: locker.h and threadpool.h

    A shallow embedding of the semaphore-driven worker pool
    ([threadpool<T>]) together with the two synchronisation wrappers it
    uses ([locker], [sem]).  The sequential reading of each member
    function is given in a small state monad; the concurrent reading is an
    interleaving of per-thread program-counter steps that reuse the same
    primitive operations.

    Conventions of the model:
    - threads interleave statement by statement and see each other's
      writes at once (also the plain [bool m_stop]);
    - [pthread_mutex_lock] and [sem_post] return only on success;
      [sem_wait] either takes a unit, or blocks, or, when a signal
      interrupts it while it is blocked, returns on failure with the
      count untouched;
    - [request->process()] is one step that returns; what a task does is
      recorded as an event and nothing else;
    - of the destructor only its body is modelled, the pool object stays
      around for the workers that still use it. *)

From Stdlib Require Import ZArith Lia List.
From stdpp Require Import base tactics option numbers list.

Local Open Scope Z_scope.

(** ** Machine integers *)

Definition INT_MIN : Z := -2147483648.       (* - 2^31 *)
Definition INT_MAX : Z := 2147483647.        (* 2^31 - 1 *)

Definition int_range (x : Z) : Prop := INT_MIN <= x <= INT_MAX.

(** Conversion of an [int] to [size_t] (64-bit unsigned), as performed by
    the usual arithmetic conversions in [size() >= m_max_requests]. *)
Definition SIZE_MODULUS : Z := 18446744073709551616.   (* 2^64 *)
Definition size_t_of_int (x : Z) : Z := x mod SIZE_MODULUS.

(** ** Task handles: [T*] *)

Abbreviation handle := Z (only parsing).
Definition NULL : handle := 0.

Definition is_null (request : handle) : bool := request =? NULL.

(** Thread identifiers ([pthread_t]). *)
Abbreviation tid := nat (only parsing).

(** ** locker.h *)

(** [class locker]: a default [pthread_mutex_t].  The state records the
    owning thread; [lock] on a held mutex does not return, and so has no
    result here. *)
Module locker.
Definition t := option tid.

Definition init : t := None.

(** [locker()]: throws (no result) when [pthread_mutex_init] fails. *)
Definition ctor (init_ok : bool) : option t :=
  if init_ok then Some init else None.

Definition lock (i : tid) (m : t) : option t :=
  match m with
  | None => Some (Some i)
  | Some _ => None
  end.

Definition unlock (i : tid) (m : t) : option t :=
  match m with
  | Some j => if Nat.eqb j i then Some None else None
  | None => None
  end.
End locker.

(** [class sem]: a POSIX counting semaphore.  [sem()] starts at 0 and
    [post] adds one unit.  [wait] returns [true] having taken one unit
    when the count is positive; on a count that is not, the call blocks
    (no result) unless a signal interrupts it, in which case [sem_wait]
    fails and [wait] returns [false], the count being what it was. *)
Module sem.
Definition t := Z.

Definition init : t := 0.
Definition init_num (num : Z) : t := num.

(** [sem()] and [sem(int num)]: throw (no result) when [sem_init]
    fails. *)
Definition ctor (init_ok : bool) : option t :=
  if init_ok then Some init else None.
Definition ctor_num (init_ok : bool) (num : Z) : option t :=
  if init_ok then Some (init_num num) else None.

Definition wait (interrupted : bool) (c : t) : option (bool * t) :=
  if 0 <? c then Some (true, c - 1)
  else if interrupted then Some (false, c)
  else None.

Definition post (c : t) : t := c + 1.
End sem.

(** ** threadpool.h: the object *)

Record threadpool := mk_threadpool {
  m_thread_number : Z;
  m_threads : list tid;
  m_max_requests : Z;
  m_workqueue : list handle;
  m_queuelocker : locker.t;
  m_queuestat : sem.t;
  m_stop : bool
}.

Definition with_workqueue (q : list handle) (p : threadpool) : threadpool :=
  mk_threadpool (m_thread_number p) (m_threads p) (m_max_requests p) q
                (m_queuelocker p) (m_queuestat p) (m_stop p).

Definition with_queuelocker (m : locker.t) (p : threadpool) : threadpool :=
  mk_threadpool (m_thread_number p) (m_threads p) (m_max_requests p)
                (m_workqueue p) m (m_queuestat p) (m_stop p).

Definition with_queuestat (c : sem.t) (p : threadpool) : threadpool :=
  mk_threadpool (m_thread_number p) (m_threads p) (m_max_requests p)
                (m_workqueue p) (m_queuelocker p) c (m_stop p).

Definition with_stop (b : bool) (p : threadpool) : threadpool :=
  mk_threadpool (m_thread_number p) (m_threads p) (m_max_requests p)
                (m_workqueue p) (m_queuelocker p) (m_queuestat p) b.

(** Observable events of a run, in program order. *)
Inductive event :=
| Ev_push (request : handle)              (* m_workqueue.push_back(request) *)
| Ev_pop (request : handle)               (* m_workqueue.pop_front() *)
| Ev_process (request : handle)           (* request->process() *)
| Ev_skip (request : handle)              (* if (!request) continue; *)
| Ev_return (request : handle) (b : bool) (* append(request) returns b *)
| Ev_exit (i : tid)                       (* run() returns *)
| Ev_wait_failed                          (* m_queuestat.wait() is false *)
| Ev_empty.                               (* m_workqueue.empty() is true *)

(** ** The monad of member functions

    A computation reads and updates the pool, may fail to return (a
    blocking call that is never released, or behaviour the language leaves
    undefined), and emits events. *)

Definition M (A : Type) : Type := threadpool → option (A * threadpool * list event).

Definition ret {A} (a : A) : M A := λ p, Some (a, p, []).

Definition bind {A B} (m : M A) (k : A → M B) : M B :=
  λ p, match m p with
       | None => None
       | Some (a, p1, e1) =>
           match k a p1 with
           | None => None
           | Some (b, p2, e2) => Some (b, p2, e1 ++ e2)
           end
       end.

Declare Scope pool_scope.
Delimit Scope pool_scope with pool.
Notation "x <- m ;; k" := (bind m (λ x, k))
  (at level 100, m at next level, right associativity) : pool_scope.
Notation "m ;; k" := (bind m (λ _, k))
  (at level 100, right associativity) : pool_scope.
Local Open Scope pool_scope.

Definition gets {A} (f : threadpool → A) : M A := λ p, Some (f p, p, []).
Definition modify (f : threadpool → threadpool) : M unit := λ p, Some (tt, f p, []).
Definition emit (e : event) : M unit := λ p, Some (tt, p, [e]).
Definition stuck {A} : M A := λ _, None.

(** [m_queuelocker.lock()] and [m_queuelocker.unlock()] by thread [i]. *)
Definition queuelocker_lock (i : tid) : M unit :=
  λ p, match locker.lock i (m_queuelocker p) with
       | Some m => Some (tt, with_queuelocker m p, [])
       | None => None
       end.

Definition queuelocker_unlock (i : tid) : M unit :=
  λ p, match locker.unlock i (m_queuelocker p) with
       | Some m => Some (tt, with_queuelocker m p, [])
       | None => None
       end.

(** [m_queuestat.wait()] and [m_queuestat.post()]. *)
Definition queuestat_wait (interrupted : bool) : M bool :=
  λ p, match sem.wait interrupted (m_queuestat p) with
       | Some (ok, c) =>
           Some (ok, with_queuestat c p, if ok then [] else [Ev_wait_failed])
       | None => None
       end.

Definition queuestat_post : M unit :=
  modify (λ p, with_queuestat (sem.post (m_queuestat p)) p).

(** [m_workqueue.size() >= m_max_requests] *)
Definition queue_full (p : threadpool) : bool :=
  size_t_of_int (m_max_requests p) <=? Z.of_nat (length (m_workqueue p)).

(** [m_workqueue.push_back(request)] *)
Definition push_back (request : handle) : M unit :=
  modify (λ p, with_workqueue (m_workqueue p ++ [request]) p) ;;
  emit (Ev_push request).

(** [m_workqueue.front()]: undefined on an empty list. *)
Definition front : M handle :=
  λ p, match m_workqueue p with
       | [] => None
       | request :: _ => Some (request, p, [])
       end.

(** [m_workqueue.pop_front()]: undefined on an empty list. *)
Definition pop_front : M unit :=
  λ p, match m_workqueue p with
       | [] => None
       | h :: rest => Some (tt, with_workqueue rest p, [Ev_pop h])
       end.

(** ** threadpool::append, run by thread [i] *)

Definition append (i : tid) (request : handle) : M bool :=
  queuelocker_lock i ;;
  full <- gets queue_full ;;
  if full then
    queuelocker_unlock i ;;
    ret false
  else
    push_back request ;;
    queuelocker_unlock i ;;
    queuestat_post ;;
    ret true.

(** ** threadpool::run, run by thread [i] *)

(** One pass through the body of [while (!m_stop)].  [interrupted] tells
    whether a signal arrives if [wait()] has to block; the value [wait()]
    returns is dropped, as at l.194. *)
Definition run_body (interrupted : bool) (i : tid) : M unit :=
  queuestat_wait interrupted ;;
  queuelocker_lock i ;;
  empty <- gets (λ p, match m_workqueue p with [] => true | _ => false end) ;;
  if empty then
    emit Ev_empty ;;
    queuelocker_unlock i
  else
    request <- front ;;
    pop_front ;;
    queuelocker_unlock i ;;
    if is_null request then
      emit (Ev_skip request)
    else
      emit (Ev_process request).

(** The loop, unrolled [fuel] times.  The result is [true] when the loop
    was left through [m_stop], [false] when the fuel ran out first.
    [signals n] tells whether a signal arrives during the [wait()] of the
    pass that has [n] passes of fuel after it. *)
Fixpoint run (signals : nat → bool) (fuel : nat) (i : tid) : M bool :=
  match fuel with
  | O => ret false
  | S fuel' =>
      stop <- gets m_stop ;;
      if stop then emit (Ev_exit i) ;; ret true
      else run_body (signals fuel') i ;; run signals fuel' i
  end.

(** ** threadpool::threadpool *)

(** [(thread_number <= 0) || (max_requests <= 0)] *)
Definition bad_arguments (thread_number max_requests : Z) : bool :=
  (thread_number <=? 0) || (max_requests <=? 0).

Inductive ctor_outcome :=
| Thrown                       (* throw std::exception() *)
| Constructed (p : threadpool).

(** What a constructor call leaves behind: its outcome and the number of
    threads [pthread_create] has started. *)
Record ctor_run := mk_ctor_run {
  outcome : ctor_outcome;
  created : nat
}.

(** The answers of the operating system to the calls made while an
    object is constructed. *)
Record os := mk_os {
  mutex_init_ok : bool;        (* pthread_mutex_init(&m_mutex, NULL) == 0 *)
  sem_init_ok : bool;          (* sem_init(&m_sem, 0, 0) == 0 *)
  create_ok : nat → bool;      (* pthread_create(m_threads + i, ...) == 0 *)
  detach_ok : nat → bool       (* pthread_detach(m_threads[i]) == 0 *)
}.

(** The [for] loop of the constructor with [n] iterations left and loop
    variable [i].  The result is [(true, k)] when the loop completes and
    [(false, k)] when it throws, [k] being the number of threads
    started. *)
Fixpoint spawn (sys : os) (n i : nat) : bool * nat :=
  match n with
  | O => (true, i)
  | S n' =>
      if create_ok sys i then
        if detach_ok sys i then spawn sys n' (S i)
        else (false, S i)
      else (false, i)
  end.

(** The members [m_queuelocker] and [m_queuestat] are constructed before
    the body runs. *)
Definition threadpool_ctor (sys : os) (thread_number max_requests : Z)
    : ctor_run :=
  match locker.ctor (mutex_init_ok sys), sem.ctor (sem_init_ok sys) with
  | Some queuelocker, Some queuestat =>
      if bad_arguments thread_number max_requests then
        mk_ctor_run Thrown 0
      else
        match spawn sys (Z.to_nat thread_number) 0 with
        | (true, k) =>
            mk_ctor_run
              (Constructed (mk_threadpool thread_number (seq 0 k) max_requests
                              [] queuelocker queuestat false))
              k
        | (false, k) => mk_ctor_run Thrown k
        end
  | _, _ => mk_ctor_run Thrown 0
  end.

(** An operating system that grants every request. *)
Definition os_grants (sys : os) : Prop :=
  mutex_init_ok sys = true ∧ sem_init_ok sys = true
  ∧ ∀ k, create_ok sys k = true ∧ detach_ok sys k = true.

Definition generous : os := mk_os true true (λ _, true) (λ _, true).

(** The body of [threadpool::~threadpool]: the stop flag is raised. *)
Definition threadpool_dtor : M unit := modify (with_stop true).

(** ** The interleaving machine

    Each thread is at a program point of the function it runs; one step
    executes the statement at that point.  The statements are the
    primitive operations used in [append] and [run_body] above. *)

(** Program points of [append], named after the statement about to run. *)
Inductive append_pc :=
| A_lock           (* m_queuelocker.lock();                        l.135 *)
| A_check          (* if (m_workqueue.size() >= m_max_requests)    l.136 *)
| A_unlock_full    (* m_queuelocker.unlock(); return false;        l.141 *)
| A_push           (* m_workqueue.push_back(request);              l.144 *)
| A_unlock         (* m_queuelocker.unlock();                      l.145 *)
| A_post           (* m_queuestat.post();                          l.151 *)
| A_return (b : bool).

(** Program points of [run].  The local [request] exists from l.210 on. *)
Inductive run_pc :=
| R_while                       (* while (!m_stop)                 l.187 *)
| R_wait                        (* m_queuestat.wait();             l.194 *)
| R_lock                        (* m_queuelocker.lock();           l.200 *)
| R_empty                       (* if (m_workqueue.empty())        l.202 *)
| R_unlock_empty                (* unlock(); continue;             l.207 *)
| R_front                       (* request = m_workqueue.front();  l.210 *)
| R_pop (request : handle)      (* m_workqueue.pop_front();        l.211 *)
| R_unlock (request : handle)   (* m_queuelocker.unlock();         l.212 *)
| R_null (request : handle)     (* if (!request) continue;         l.213 *)
| R_process (request : handle)  (* request->process();             l.225 *)
| R_exit.                       (* run() has returned              l.228 *)

Definition append_step (i : tid) (request : handle) (pc : append_pc) : M append_pc :=
  match pc with
  | A_lock => queuelocker_lock i ;; ret A_check
  | A_check => full <- gets queue_full ;; ret (if full then A_unlock_full else A_push)
  | A_unlock_full => queuelocker_unlock i ;; ret (A_return false)
  | A_push => push_back request ;; ret A_unlock
  | A_unlock => queuelocker_unlock i ;; ret A_post
  | A_post => queuestat_post ;; ret (A_return true)
  | A_return _ => stuck
  end.

Definition run_step (interrupted : bool) (i : tid) (pc : run_pc) : M run_pc :=
  match pc with
  | R_while =>
      stop <- gets m_stop ;;
      if stop then emit (Ev_exit i) ;; ret R_exit else ret R_wait
  | R_wait => queuestat_wait interrupted ;; ret R_lock
  | R_lock => queuelocker_lock i ;; ret R_empty
  | R_empty =>
      empty <- gets (λ p, match m_workqueue p with [] => true | _ => false end) ;;
      if empty then emit Ev_empty ;; ret R_unlock_empty else ret R_front
  | R_unlock_empty => queuelocker_unlock i ;; ret R_while
  | R_front => request <- front ;; ret (R_pop request)
  | R_pop request => pop_front ;; ret (R_unlock request)
  | R_unlock request => queuelocker_unlock i ;; ret (R_null request)
  | R_null request =>
      if is_null request then emit (Ev_skip request) ;; ret R_while
      else ret (R_process request)
  | R_process request => emit (Ev_process request) ;; ret R_while
  | R_exit => stuck
  end.

(** A thread is a caller outside [append], a caller inside
    [append(request)], or a worker inside [run]. *)
Inductive thread :=
| Idle
| In_append (pc : append_pc) (request : handle)
| In_run (pc : run_pc).

Definition thread_step (interrupted : bool) (i : tid) (t : thread) : M thread :=
  match t with
  | Idle => stuck
  | In_append (A_return b) request => emit (Ev_return request b) ;; ret Idle
  | In_append pc request =>
      pc' <- append_step i request pc ;; ret (In_append pc' request)
  | In_run pc => pc' <- run_step interrupted i pc ;; ret (In_run pc')
  end.

Record system := mk_system {
  pool : threadpool;
  threads : list thread
}.

(** What the scheduler and the environment may do next: let caller [i]
    enter [append(request)], let thread [i] execute one statement,
    interrupt the [wait()] in which worker [i] is blocked, or run the
    destructor body. *)
Inductive action :=
| Call (i : tid) (request : handle)
| Step (i : tid)
| Interrupt (i : tid)
| Destroy.

Definition do_action (a : action) (s : system) : option (system * list event) :=
  match a with
  | Call i request =>
      match threads s !! i with
      | Some Idle =>
          Some (mk_system (pool s) (<[i := In_append A_lock request]> (threads s)), [])
      | _ => None
      end
  | Step i =>
      match threads s !! i with
      | Some t =>
          match thread_step false i t (pool s) with
          | Some (t', p', evs) => Some (mk_system p' (<[i := t']> (threads s)), evs)
          | None => None
          end
      | None => None
      end
  | Interrupt i =>
      match threads s !! i with
      | Some (In_run R_wait) =>
          if 0 <? m_queuestat (pool s) then None
          else
            match thread_step true i (In_run R_wait) (pool s) with
            | Some (t', p', evs) =>
                Some (mk_system p' (<[i := t']> (threads s)), evs)
            | None => None
            end
      | _ => None
      end
  | Destroy =>
      match threadpool_dtor (pool s) with
      | Some (_, p', evs) => Some (mk_system p' (threads s), evs)
      | None => None
      end
  end.

Fixpoint exec (sch : list action) (s : system) : option (system * list event) :=
  match sch with
  | [] => Some (s, [])
  | a :: sch' =>
      match do_action a s with
      | Some (s1, e1) =>
          match exec sch' s1 with
          | Some (s2, e2) => Some (s2, e1 ++ e2)
          | None => None
          end
      | None => None
      end
  end.

(** Running [append] from [pc] up to its [return], without interference
    from other threads. *)
Fixpoint append_from (fuel : nat) (i : tid) (request : handle)
    (pc : append_pc) : M bool :=
  match pc with
  | A_return b => ret b
  | _ =>
      match fuel with
      | O => stuck
      | S fuel' =>
          pc' <- append_step i request pc ;;
          append_from fuel' i request pc'
      end
  end.

(** Running [run] from [pc] up to the next loop test, without
    interference from other threads. *)
Fixpoint run_from (interrupted : bool) (fuel : nat) (i : tid) (pc : run_pc)
    : M unit :=
  match fuel with
  | O => stuck
  | S fuel' =>
      pc' <- run_step interrupted i pc ;;
      match pc' with
      | R_while => ret tt
      | _ => run_from interrupted fuel' i pc'
      end
  end.

(** The value a call of [append] standing at [pc] is bound to return; it
    is fixed by the branch taken at l.136. *)
Definition decided (pc : append_pc) : option bool :=
  match pc with
  | A_lock | A_check => None
  | A_unlock_full => Some false
  | A_push | A_unlock | A_post => Some true
  | A_return b => Some b
  end.

(** The system right after a successful constructor call: every created
    thread is at the top of [run], and [callers] further threads exist
    that may call [append]. *)
Definition boot (p : threadpool) (callers : nat) : system :=
  mk_system p (replicate (length (m_threads p)) (In_run R_while)
               ++ replicate callers Idle).

(** [s] with history [tr] is reachable from a pool built by
    [threadpool(thread_number, max_requests)]. *)
Definition reachable (thread_number max_requests : Z) (s : system)
    (tr : list event) : Prop :=
  ∃ sys p callers sch,
    int_range thread_number ∧ int_range max_requests
    ∧ outcome (threadpool_ctor sys thread_number max_requests)
      = Constructed p
    ∧ exec sch (boot p callers) = Some (s, tr).

(** ** Projections of a history *)

Definition pushes (tr : list event) : list handle :=
  omap (λ e, match e with Ev_push h => Some h | _ => None end) tr.
Definition pops (tr : list event) : list handle :=
  omap (λ e, match e with Ev_pop h => Some h | _ => None end) tr.
Definition processed (tr : list event) : list handle :=
  omap (λ e, match e with Ev_process h => Some h | _ => None end) tr.
Definition skipped (tr : list event) : list handle :=
  omap (λ e, match e with Ev_skip h => Some h | _ => None end) tr.
Definition accepted (tr : list event) : list handle :=
  omap (λ e, match e with Ev_return h true => Some h | _ => None end) tr.
Definition rejected (tr : list event) : list handle :=
  omap (λ e, match e with Ev_return h false => Some h | _ => None end) tr.

(** The number of [wait()] calls that have returned on failure, and of
    loop passes that have found the queue empty. *)
Definition failed_waits (tr : list event) : nat :=
  length (omap (λ e, match e with Ev_wait_failed => Some tt | _ => None end) tr).
Definition empty_passes (tr : list event) : nat :=
  length (omap (λ e, match e with Ev_empty => Some tt | _ => None end) tr).

(** Number of occurrences of a handle. *)
Definition occ (h : handle) (l : list handle) : nat := count_occ Z.eq_dec l h.

(** ** Per-thread bookkeeping *)

Fixpoint tally (f : thread → nat) (l : list thread) : nat :=
  match l with
  | [] => O
  | t :: l' => (f t + tally f l')%nat
  end.

(** The thread is between [lock()] and [unlock()]. *)
Definition holds_lock (t : thread) : bool :=
  match t with
  | In_append (A_check | A_unlock_full | A_push | A_unlock) _ => true
  | In_run (R_empty | R_unlock_empty | R_front | R_pop _ | R_unlock _) => true
  | _ => false
  end.

(** The thread has pushed without having posted yet, or has returned from
    [wait()] and has neither popped nor found the queue empty yet. *)
Definition owed (t : thread) : nat :=
  match t with
  | In_append (A_unlock | A_post) _ => 1
  | In_run (R_lock | R_empty | R_front | R_pop _) => 1
  | _ => 0
  end%nat.

(** The worker has popped [h] and has neither skipped nor processed it. *)
Definition holding (h : handle) (t : thread) : nat :=
  match t with
  | In_run (R_unlock r | R_null r | R_process r) => if Z.eq_dec r h then 1 else 0
  | _ => 0
  end%nat.

(** The caller has pushed [h] and [append] has not returned [true] yet. *)
Definition accepting (h : handle) (t : thread) : nat :=
  match t with
  | In_append (A_unlock | A_post | A_return true) r => if Z.eq_dec r h then 1 else 0
  | _ => 0
  end%nat.

(** No call of [append] and no loop iteration is under way. *)
Definition at_rest (t : thread) : bool :=
  match t with
  | Idle | In_run (R_while | R_wait | R_exit) => true
  | _ => false
  end.

Definition quiescent (s : system) : Prop :=
  Forall (λ t, at_rest t = true) (threads s).

(** Nothing is under way and nothing is left in the queue. *)
Definition drained (s : system) : Prop :=
  quiescent s ∧ m_workqueue (pool s) = [].

Definition in_append (t : thread) : bool :=
  match t with
  | In_append _ _ => true
  | _ => false
  end.

Definition is_call (a : action) : bool :=
  match a with
  | Call _ _ => true
  | _ => false
  end.

Definition is_step (a : action) : bool :=
  match a with
  | Step _ => true
  | _ => false
  end.

Definition is_interrupt (a : action) : bool :=
  match a with
  | Interrupt _ => true
  | _ => false
  end.

(** The number of actions of a schedule that satisfy [f]. *)
Definition count_actions (f : action → bool) (sch : list action) : nat :=
  length (List.filter f sch).

(** A potential that every executed statement brings down, and so a bound
    on the number of statements the threads can still execute when no
    further call of [append] is made and no [wait()] is interrupted.  A
    queued request and a semaphore unit weigh 20 each, more than the
    statements they pay for; a thread weighs what is left of its call or
    pass, less what the request or unit it still holds weighs.  An
    interrupted [wait()] raises the potential by 19. *)
Definition weight (t : thread) : nat :=
  match t with
  | Idle => 0
  | In_append A_lock _ => 46
  | In_append A_check _ => 45
  | In_append A_push _ => 44
  | In_append A_unlock _ => 23
  | In_append A_post _ => 22
  | In_append A_unlock_full _ => 2
  | In_append (A_return _) _ => 1
  | In_run R_while => 11
  | In_run R_wait => 10
  | In_run R_lock => 29
  | In_run R_empty => 28
  | In_run R_front => 27
  | In_run (R_pop _) => 26
  | In_run (R_unlock _) => 25
  | In_run (R_null _) => 24
  | In_run (R_process _) => 23
  | In_run R_unlock_empty => 12
  | In_run R_exit => 0
  end%nat.

Definition potential (s : system) : nat :=
  (tally weight (threads s)
   + 20 * length (m_workqueue (pool s))
   + 20 * Z.to_nat (m_queuestat (pool s)))%nat.

(** States used as examples below. *)

(** One caller has pushed request 7 and released the mutex; its [post()]
    has not run yet. *)
Definition post_pending : system :=
  mk_system (mk_threadpool 1 [0%nat] 1 [7] None 0 false)
            [In_run R_while; In_append A_post 7].

(** [append(NULL)] has returned [true], the worker has taken the handle
    off the queue, skipped it and gone back to [wait()]. *)
Definition null_served : system :=
  mk_system (mk_threadpool 1 [0%nat] 1 [] None 0 false)
            [In_run R_wait; Idle].

(** The worker waits on an empty queue and the destructor has run. *)
Definition stopped_waiting : system :=
  mk_system (mk_threadpool 1 [0%nat] 1 [] None 0 true)
            [In_run R_wait; Idle].

(** ** Statement-level transitions

    The relational reading of [thread_step]: one constructor per statement
    and branch, with the condition under which it fires. *)

Inductive transition (i : tid) :
    thread → threadpool → thread → threadpool → list event → Prop :=
| T_a_lock p r :
    m_queuelocker p = None →
    transition i (In_append A_lock r) p
                 (In_append A_check r) (with_queuelocker (Some i) p) []
| T_a_check_full p r :
    queue_full p = true →
    transition i (In_append A_check r) p (In_append A_unlock_full r) p []
| T_a_check_room p r :
    queue_full p = false →
    transition i (In_append A_check r) p (In_append A_push r) p []
| T_a_unlock_full p r :
    m_queuelocker p = Some i →
    transition i (In_append A_unlock_full r) p
                 (In_append (A_return false) r) (with_queuelocker None p) []
| T_a_push p r :
    transition i (In_append A_push r) p
                 (In_append A_unlock r)
                 (with_workqueue (m_workqueue p ++ [r]) p) [Ev_push r]
| T_a_unlock p r :
    m_queuelocker p = Some i →
    transition i (In_append A_unlock r) p
                 (In_append A_post r) (with_queuelocker None p) []
| T_a_post p r :
    transition i (In_append A_post r) p
                 (In_append (A_return true) r)
                 (with_queuestat (m_queuestat p + 1) p) []
| T_a_return p r b :
    transition i (In_append (A_return b) r) p Idle p [Ev_return r b]
| T_r_while_stop p :
    m_stop p = true →
    transition i (In_run R_while) p (In_run R_exit) p [Ev_exit i]
| T_r_while_go p :
    m_stop p = false →
    transition i (In_run R_while) p (In_run R_wait) p []
| T_r_wait p :
    0 < m_queuestat p →
    transition i (In_run R_wait) p
                 (In_run R_lock) (with_queuestat (m_queuestat p - 1) p) []
| T_r_wait_failed p :
    m_queuestat p <= 0 →
    transition i (In_run R_wait) p
                 (In_run R_lock) (with_queuestat (m_queuestat p) p)
                 [Ev_wait_failed]
| T_r_lock p :
    m_queuelocker p = None →
    transition i (In_run R_lock) p
                 (In_run R_empty) (with_queuelocker (Some i) p) []
| T_r_empty_yes p :
    m_workqueue p = [] →
    transition i (In_run R_empty) p (In_run R_unlock_empty) p [Ev_empty]
| T_r_empty_no p :
    m_workqueue p ≠ [] →
    transition i (In_run R_empty) p (In_run R_front) p []
| T_r_unlock_empty p :
    m_queuelocker p = Some i →
    transition i (In_run R_unlock_empty) p
                 (In_run R_while) (with_queuelocker None p) []
| T_r_front p r q :
    m_workqueue p = r :: q →
    transition i (In_run R_front) p (In_run (R_pop r)) p []
| T_r_pop p r h q :
    m_workqueue p = h :: q →
    transition i (In_run (R_pop r)) p
                 (In_run (R_unlock r)) (with_workqueue q p) [Ev_pop h]
| T_r_unlock p r :
    m_queuelocker p = Some i →
    transition i (In_run (R_unlock r)) p
                 (In_run (R_null r)) (with_queuelocker None p) []
| T_r_null_skip p r :
    r = NULL →
    transition i (In_run (R_null r)) p (In_run R_while) p [Ev_skip r]
| T_r_null_go p r :
    r ≠ NULL →
    transition i (In_run (R_null r)) p (In_run (R_process r)) p []
| T_r_process p r :
    transition i (In_run (R_process r)) p (In_run R_while) p [Ev_process r].

(** One move of the whole system: a call, a statement of a thread (with or
    without an interrupted [wait()]), the destructor. *)
Inductive sys_step : system → list event → system → Prop :=
| S_call s i r :
    threads s !! i = Some Idle →
    sys_step s [] (mk_system (pool s) (<[i := In_append A_lock r]> (threads s)))
| S_thread s i t t' p' evs :
    threads s !! i = Some t →
    transition i t (pool s) t' p' evs →
    sys_step s evs (mk_system p' (<[i := t']> (threads s)))
| S_destroy s :
    sys_step s [] (mk_system (with_stop true (pool s)) (threads s)).

(** ** Invariants *)

(** Mutual exclusion: the threads inside a critical section are exactly
    the owner recorded in the mutex. *)
Definition lock_inv (s : system) : Prop :=
  (∀ i t, threads s !! i = Some t →
          (holds_lock t = true ↔ m_queuelocker (pool s) = Some i))
  ∧ (∀ i, m_queuelocker (pool s) = Some i → is_Some (threads s !! i)).

(** What a thread knows about the pool at its program point. *)
Definition local_ok (p : threadpool) (t : thread) : Prop :=
  match t with
  | In_append A_push _ => Z.of_nat (length (m_workqueue p)) < m_max_requests p
  | In_run R_front => m_workqueue p ≠ []
  | In_run (R_pop r) => head (m_workqueue p) = Some r
  | In_run (R_process r) => r ≠ NULL
  | In_run R_exit => m_stop p = true
  | _ => True
  end.

Record state_inv (s : system) : Prop := mk_state_inv {
  inv_max : 0 < m_max_requests (pool s) <= INT_MAX;
  inv_local : ∀ i t, threads s !! i = Some t → local_ok (pool s) t;
  inv_bound : Z.of_nat (length (m_workqueue (pool s))) <= m_max_requests (pool s);
  inv_sem : Z.of_nat (length (m_workqueue (pool s)))
            <= m_queuestat (pool s) + Z.of_nat (tally owed (threads s));
  inv_sem_pos : 0 <= m_queuestat (pool s);
  inv_worker : ∃ i pc, threads s !! i = Some (In_run pc)
}.

Record history_inv (s : system) (tr : list event) : Prop := mk_history_inv {
  inv_fifo : pushes tr = pops tr ++ m_workqueue (pool s);
  inv_pops : ∀ h, occ h (pops tr)
                  = (occ h (processed tr) + occ h (skipped tr)
                     + tally (holding h) (threads s))%nat;
  inv_pushes : ∀ h, occ h (pushes tr)
                    = (occ h (accepted tr) + tally (accepting h) (threads s))%nat;
  inv_processed : Forall (λ h, h ≠ NULL) (processed tr);
  inv_skipped : Forall (λ h, h = NULL) (skipped tr);
  inv_account : Z.of_nat (length (m_workqueue (pool s)))
                + Z.of_nat (failed_waits tr)
                = m_queuestat (pool s) + Z.of_nat (tally owed (threads s))
                  + Z.of_nat (empty_passes tr)
}.

Definition invariant (s : system) (tr : list event) : Prop :=
  lock_inv s ∧ state_inv s ∧ history_inv s tr.

(** ** Further readings of the code *)

(** What a worker does with the requests of a queue it serves alone: each
    one is popped, then skipped if null and processed otherwise. *)
Definition serve (q : list handle) : list event :=
  flat_map (λ request,
              [Ev_pop request;
               if is_null request then Ev_skip request
               else Ev_process request]) q.

(** Successive calls [append(r1); append(r2); ...] by one thread, with the
    values they return. *)
Fixpoint append_all (i : tid) (requests : list handle) : M (list bool) :=
  match requests with
  | [] => ret []
  | request :: rest =>
      b <- append i request ;;
      bs <- append_all i rest ;;
      ret (b :: bs)
  end.

(** The worker has passed the loop test and not come back to it. *)
Definition in_iteration (t : thread) : nat :=
  match t with
  | In_run (R_while | R_exit) => 0
  | In_run _ => 1
  | _ => 0
  end%nat.

Definition is_worker (t : thread) : nat :=
  match t with
  | In_run _ => 1
  | _ => 0
  end%nat.

(** The request a worker has in hand: popped, neither skipped nor
    processed yet. *)
Definition in_hand (t : thread) : list handle :=
  match t with
  | In_run (R_unlock r | R_null r | R_process r) => [r]
  | _ => []
  end.

(** The requests skipped or processed, in the order it was done. *)
Definition handled (tr : list event) : list handle :=
  omap (λ e, match e with
             | Ev_process h | Ev_skip h => Some h
             | _ => None
             end) tr.

Definition exits (tr : list event) : list tid :=
  omap (λ e, match e with Ev_exit i => Some i | _ => None end) tr.

(** A bound on the statements left before the thread releases the
    mutex. *)
Definition cs_left (t : thread) : nat :=
  match t with
  | In_append A_check _ => 3
  | In_append A_push _ => 2
  | In_append (A_unlock | A_unlock_full) _ => 1
  | In_run R_empty => 4
  | In_run R_front => 3
  | In_run (R_pop _) => 2
  | In_run (R_unlock _ | R_unlock_empty) => 1
  | _ => 0
  end%nat.

(** An operating system that refuses to create the thread of index [k]
    and grants everything else. *)
Definition refuses_thread (k : nat) : os :=
  mk_os true true (λ i, negb (Nat.eqb i k)) (λ _, true).
(** * Proofs *)

(** ** Bookkeeping lemmas *)

Lemma tally_insert f (l : list thread) i t t' :
  l !! i = Some t →
  (tally f (<[i := t']> l) + f t = tally f l + f t')%nat.
Proof.
  revert i. induction l as [|x l IH]; intros [|i] Hi; simpl in *; try done.
  - injection Hi as ->. lia.
  - specialize (IH _ Hi). lia.
Qed.

Lemma tally_lookup_le f (l : list thread) i t :
  l !! i = Some t → (f t <= tally f l)%nat.
Proof.
  revert i. induction l as [|x l IH]; intros [|i] Hi; simpl in *; try done.
  - injection Hi as ->. lia.
  - specialize (IH _ Hi). lia.
Qed.

Lemma tally_app f (l1 l2 : list thread) :
  tally f (l1 ++ l2) = (tally f l1 + tally f l2)%nat.
Proof. induction l1 as [|x l1 IH]; simpl; lia. Qed.

Lemma tally_replicate f n t : tally f (replicate n t) = (n * f t)%nat.
Proof. induction n as [|n IH]; simpl; lia. Qed.

Lemma tally_zero f (l : list thread) :
  Forall (λ t, f t = O) l → tally f l = O.
Proof. induction 1 as [|x l Hx _ IH]; simpl; lia. Qed.

Lemma occ_app h (l1 l2 : list handle) :
  occ h (l1 ++ l2) = (occ h l1 + occ h l2)%nat.
Proof. apply count_occ_app. Qed.

Lemma occ_cons h x (l : list handle) :
  occ h (x :: l) = ((if Z.eq_dec x h then 1 else 0) + occ h l)%nat.
Proof. unfold occ. simpl. destruct (Z.eq_dec x h); lia. Qed.

Lemma occ_nil h : occ h [] = O.
Proof. reflexivity. Qed.

Lemma pushes_app t1 t2 : pushes (t1 ++ t2) = pushes t1 ++ pushes t2.
Proof. apply omap_app. Qed.
Lemma pops_app t1 t2 : pops (t1 ++ t2) = pops t1 ++ pops t2.
Proof. apply omap_app. Qed.
Lemma processed_app t1 t2 : processed (t1 ++ t2) = processed t1 ++ processed t2.
Proof. apply omap_app. Qed.
Lemma skipped_app t1 t2 : skipped (t1 ++ t2) = skipped t1 ++ skipped t2.
Proof. apply omap_app. Qed.
Lemma accepted_app t1 t2 : accepted (t1 ++ t2) = accepted t1 ++ accepted t2.
Proof. apply omap_app. Qed.
Lemma rejected_app t1 t2 : rejected (t1 ++ t2) = rejected t1 ++ rejected t2.
Proof. apply omap_app. Qed.

Lemma failed_waits_app t1 t2 :
  failed_waits (t1 ++ t2) = (failed_waits t1 + failed_waits t2)%nat.
Proof. unfold failed_waits. by rewrite omap_app, length_app. Qed.
Lemma empty_passes_app t1 t2 :
  empty_passes (t1 ++ t2) = (empty_passes t1 + empty_passes t2)%nat.
Proof. unfold empty_passes. by rewrite omap_app, length_app. Qed.

(** ** The functional and the relational semantics agree *)

Lemma thread_step_transition b i t p t' p' evs :
  thread_step b i t p = Some (t', p', evs) → transition i t p t' p' evs.
Proof.
  destruct t as [|pc r|pc]; [done|destruct pc|destruct pc];
    cbv [thread_step append_step run_step bind ret gets modify emit stuck
         queuelocker_lock queuelocker_unlock queuestat_wait queuestat_post
         push_back front pop_front locker.lock locker.unlock sem.wait sem.post];
    intros H.
  all: repeat match type of H with
         | context [match m_queuelocker ?p with _ => _ end] =>
             destruct (m_queuelocker p) as [j|] eqn:?
         | context [Nat.eqb ?a ?b] => destruct (Nat.eqb_spec a b); subst
         | context [queue_full ?p] => destruct (queue_full p) eqn:?
         | context [m_stop ?p] => destruct (m_stop p) eqn:?
         | context [0 <? ?c] => destruct (Z.ltb_spec 0 c)
         | context [if ?x then _ else _] => is_var x; destruct x
         | context [match m_workqueue ?p with _ => _ end] =>
             destruct (m_workqueue p) as [|h q] eqn:?
         | context [is_null ?r] => unfold is_null in H; destruct (Z.eqb_spec r NULL)
         end; simpl in H; try discriminate.
  all: injection H as <- <- <-; try (econstructor; eauto; congruence).
Qed.

(** Every transition is a step of [thread_step]; only the failed [wait()]
    needs the signal. *)
Lemma transition_thread_step b i t p t' p' evs :
  transition i t p t' p' evs →
  b = true ∨ t ≠ In_run R_wait ∨ 0 < m_queuestat p →
  thread_step b i t p = Some (t', p', evs).
Proof.
  destruct 1; intros Hb;
    cbv [thread_step append_step run_step bind ret gets modify emit stuck
         queuelocker_lock queuelocker_unlock queuestat_wait queuestat_post
         push_back front pop_front locker.lock locker.unlock sem.wait sem.post];
    repeat match goal with
      | H : _ = _ |- _ => rewrite H
      end; simpl; rewrite ?Nat.eqb_refl; try reflexivity.
  - destruct (Z.ltb_spec 0 (m_queuestat p)); [reflexivity|lia].
  - destruct (Z.ltb_spec 0 (m_queuestat p)); [lia|].
    destruct Hb as [->|[Hb|Hb]]; [reflexivity|congruence|lia].
  - destruct (m_workqueue p); [done|reflexivity].
  - unfold is_null. destruct (Z.eqb_spec r NULL); [done|reflexivity].
Qed.

Lemma do_action_sys_step a s s' evs :
  do_action a s = Some (s', evs) → sys_step s evs s'.
Proof.
  destruct a as [i r|i|i|]; cbn [do_action].
  - destruct (threads s !! i) as [[| |]|] eqn:Hi; try done.
    intros [= <- <-]. by constructor.
  - destruct (threads s !! i) as [t|] eqn:Hi; [|done].
    destruct (thread_step false i t (pool s)) as [[[t' p'] e]|] eqn:Hs; [|done].
    intros [= <- <-]. econstructor; eauto using thread_step_transition.
  - destruct (threads s !! i) as [[| |[]]|] eqn:Hi; try done.
    destruct (0 <? m_queuestat (pool s)); [done|].
    destruct (thread_step true i (In_run R_wait) (pool s))
      as [[[t' p'] e]|] eqn:Hs; [|done].
    intros [= <- <-]. econstructor; eauto using thread_step_transition.
  - intros [= <- <-]. constructor.
Qed.

(** ** Mutual exclusion *)

Lemma lock_inv_step s evs s' : lock_inv s → sys_step s evs s' → lock_inv s'.
Proof.
  intros [Hinv Hown] Hstep.
  destruct Hstep as [s i r Hi|s i t t' p' evs Hi Htr|s]; simpl.
  - split.
    + intros j tj Hj.
      apply list_lookup_insert_Some in Hj as [(<- & <- & _)|(Hne & Hj)].
      * pose proof (Hinv _ _ Hi). simpl in *. intuition congruence.
      * by apply Hinv.
    + intros j Hj. simpl in *. apply lookup_lt_is_Some.
      rewrite length_insert. apply lookup_lt_is_Some. auto.
  - pose proof (Hinv _ _ Hi) as Hii. split.
    + intros j tj Hj.
      apply list_lookup_insert_Some in Hj as [(<- & <- & _)|(Hne & Hj)].
      * destruct Htr; simpl in *; intuition congruence.
      * pose proof (Hinv _ _ Hj).
        destruct Htr; simpl in *; intuition congruence.
    + intros j Hj. cbn [pool threads] in *. apply lookup_lt_is_Some.
      rewrite length_insert. apply lookup_lt_is_Some.
      destruct Htr; cbn [m_queuelocker with_queuelocker with_workqueue
                         with_queuestat] in Hj;
        try (by apply Hown); try done.
      all: injection Hj as <-; eauto.
  - split; [apply Hinv|apply Hown].
Qed.

(** Two distinct threads are never both inside a critical section. *)
Lemma lock_inv_exclusive s i j ti tj :
  lock_inv s → threads s !! i = Some ti → threads s !! j = Some tj →
  holds_lock ti = true → holds_lock tj = true → i = j.
Proof.
  intros [Hinv _] Hi Hj Hti Htj.
  apply (Hinv _ _ Hi) in Hti. apply (Hinv _ _ Hj) in Htj. congruence.
Qed.

(** ** Queue bound and semaphore accounting *)

Lemma queue_full_spec p :
  0 < m_max_requests p <= INT_MAX →
  queue_full p = (m_max_requests p <=? Z.of_nat (length (m_workqueue p))).
Proof.
  intros H. unfold queue_full, size_t_of_int.
  rewrite Z.mod_small; [done|]. unfold INT_MAX, SIZE_MODULUS in *. lia.
Qed.

Lemma state_inv_step s evs s' :
  lock_inv s → state_inv s → sys_step s evs s' → state_inv s'.
Proof.
  intros [Hlock _] [Hmax Hloc Hbound Hsem Hpos (w & wpc & Hw)] Hstep.
  destruct Hstep as [s i r Hi|s i t t' p' evs Hi Htr|s].
  - pose proof (tally_insert owed _ _ _ (In_append A_lock r) Hi) as Ht.
    split; simpl in *; try done; [|lia|].
    + intros j tj Hj.
      apply list_lookup_insert_Some in Hj as [(<- & <- & _)|(Hne & Hj)]; [done|].
      by apply (Hloc j).
    + exists w, wpc. rewrite list_lookup_insert_ne; [done|]. congruence.
  - pose proof (tally_insert owed _ _ _ t' Hi) as Htally.
    pose proof (tally_lookup_le owed _ _ _ Hi) as Hle.
    pose proof (Hloc _ _ Hi) as Hli.
    pose proof (Hlock _ _ Hi) as Hki.
    assert (Hfull : queue_full (pool s)
                    = (m_max_requests (pool s) <=? Z.of_nat (length (m_workqueue (pool s)))))
      by by apply queue_full_spec.
    split.
    + destruct Htr; simpl in *; done.
    + intros j tj Hj.
      apply list_lookup_insert_Some in Hj as [(<- & <- & _)|(Hne & Hj)].
      * destruct Htr; simpl in *; try done.
        -- rewrite Hfull in *. lia.
        -- by rewrite H.
      * pose proof (Hloc _ _ Hj) as Hlj. pose proof (Hlock _ _ Hj) as Hkj.
        destruct Htr; simpl in *; try done;
          destruct tj as [|[] ?|[]]; simpl in *; try done; intuition congruence.
    + destruct Htr;
        cbn [pool m_workqueue m_max_requests with_workqueue with_queuelocker
             with_queuestat local_ok] in *;
        try done;
        repeat match goal with
          | H : m_workqueue _ = _ |- _ => rewrite H in *; clear H
          end;
        rewrite ?length_app; cbn [length] in *; lia.
    + destruct Htr;
        cbn [pool threads m_workqueue m_queuestat with_workqueue
             with_queuelocker with_queuestat owed] in *;
        repeat match goal with
          | H : m_workqueue _ = _ |- _ => rewrite H in *; clear H
          end;
        rewrite ?length_app; cbn [length] in *; lia.
    + destruct Htr; simpl in *; lia.
    + cbn [threads]. destruct (decide (i = w)) as [->|Hne].
      * rewrite Hw in Hi. injection Hi as <-.
        assert (∃ pc', t' = In_run pc') as [pc' ->]
          by (inversion Htr; eauto).
        exists w, pc'. apply list_lookup_insert_eq. by eapply lookup_lt_Some.
      * exists w, wpc. by rewrite list_lookup_insert_ne.
  - split; simpl in *; try done; [|eauto].
    intros j tj Hj. specialize (Hloc _ _ Hj).
    destruct tj as [|[] ?|[]]; simpl in *; done.
Qed.

(** ** Histories *)

Lemma history_inv_step s tr evs s' :
  lock_inv s → state_inv s → history_inv s tr → sys_step s evs s' →
  history_inv s' (tr ++ evs).
Proof.
  intros Hlock Hst [Hfifo Hpops Hpushes Hproc Hskip Hacc] Hstep.
  destruct Hstep as [s i r Hi|s i t t' p' evs Hi Htr|s].
  - rewrite app_nil_r. split; simpl; try done.
    + intros h. rewrite Hpops.
      pose proof (tally_insert (holding h) _ _ _ (In_append A_lock r) Hi).
      simpl in *. lia.
    + intros h. rewrite Hpushes.
      pose proof (tally_insert (accepting h) _ _ _ (In_append A_lock r) Hi).
      simpl in *. lia.
    + pose proof (tally_insert owed _ _ _ (In_append A_lock r) Hi).
      simpl in *. lia.
  - pose proof (inv_local _ Hst _ _ Hi) as Hli.
    split.
    + rewrite pushes_app, pops_app, Hfifo.
      destruct Htr; cbn [pool m_workqueue with_workqueue with_queuelocker
                         with_queuestat pushes pops omap] in *;
        rewrite ?app_nil_r; try done.
      * by rewrite app_assoc.
      * rewrite H. by rewrite <- app_assoc.
    + intros h. specialize (Hpops h).
      pose proof (tally_insert (holding h) _ _ _ t' Hi) as Htally.
      rewrite pops_app, processed_app, skipped_app, !occ_app.
      destruct Htr; simpl in *;
        try (rewrite H in Hli; cbn [head] in Hli; injection Hli as ->);
        rewrite ?occ_cons, ?occ_nil; repeat case_match; lia.
    + intros h. specialize (Hpushes h).
      pose proof (tally_insert (accepting h) _ _ _ t' Hi) as Htally.
      rewrite pushes_app, accepted_app, !occ_app.
      destruct Htr; simpl in *;
        repeat (case_match; simpl in * );
        rewrite ?occ_cons, ?occ_nil; repeat case_match; subst; try done; lia.
    + rewrite processed_app. apply Forall_app. split; [done|].
      destruct Htr; simpl; try done.
      by constructor.
    + rewrite skipped_app. apply Forall_app. split; [done|].
      destruct Htr; simpl; try done.
      by constructor.
    + pose proof (tally_insert owed _ _ _ t' Hi) as Htally.
      rewrite failed_waits_app, empty_passes_app.
      set (F := failed_waits tr) in *. set (E := empty_passes tr) in *.
      destruct Htr; unfold failed_waits, empty_passes; simpl (omap _ _);
        cbn [pool threads m_workqueue m_queuestat with_workqueue
             with_queuelocker with_queuestat owed] in *;
        repeat match goal with
          | H : m_workqueue _ = _ |- _ => rewrite H in *; clear H
          end;
        rewrite ?length_app; cbn [length] in *; lia.
  - rewrite app_nil_r. split; simpl; done.
Qed.

(** ** All invariants hold in every reachable state *)

Lemma invariant_step s tr evs s' :
  invariant s tr → sys_step s evs s' → invariant s' (tr ++ evs).
Proof.
  intros (Hlock & Hst & Hhist) Hstep. split; [|split].
  - eapply lock_inv_step; eauto.
  - eapply state_inv_step; eauto.
  - eapply history_inv_step; eauto.
Qed.

Lemma invariant_exec sch : ∀ s tr s' evs,
  invariant s tr → exec sch s = Some (s', evs) → invariant s' (tr ++ evs).
Proof.
  induction sch as [|a sch IH]; intros s tr s' evs Hinv; simpl.
  - intros [= <- <-]. by rewrite app_nil_r.
  - destruct (do_action a s) as [[s1 e1]|] eqn:Ha; [|done].
    destruct (exec sch s1) as [[s2 e2]|] eqn:He; [|done].
    intros [= <- <-]. rewrite app_assoc.
    eapply IH; [|done]. eapply invariant_step; eauto using do_action_sys_step.
Qed.

Lemma spawn_all_ok sys n i k :
  spawn sys n i = (true, k) → k = (i + n)%nat.
Proof.
  revert i. induction n as [|n IH]; intros i; simpl.
  - intros [= <-]. lia.
  - destruct (create_ok sys i); [|done]. destruct (detach_ok sys i); [|done].
    intros H. apply IH in H. lia.
Qed.

(** A constructor call that returns an object was given positive
    arguments, started [thread_number] threads and left the pool empty. *)
Lemma ctor_constructed sys thread_number max_requests p :
  outcome (threadpool_ctor sys thread_number max_requests) = Constructed p →
  0 < thread_number ∧ 0 < max_requests
  ∧ p = mk_threadpool thread_number (seq 0 (Z.to_nat thread_number))
          max_requests [] None 0 false.
Proof.
  unfold threadpool_ctor, bad_arguments, locker.ctor, sem.ctor.
  destruct (mutex_init_ok sys); [|done]. destruct (sem_init_ok sys); [|done].
  destruct (Z.leb_spec thread_number 0); [done|].
  destruct (Z.leb_spec max_requests 0); [done|]. simpl.
  destruct (spawn _ _ _) as [[] k] eqn:Hs; [|done].
  apply spawn_all_ok in Hs. simpl in Hs. subst k.
  intros [= <-]. done.
Qed.

Lemma lookup_boot p callers i t :
  threads (boot p callers) !! i = Some t → t = In_run R_while ∨ t = Idle.
Proof.
  unfold boot. simpl. intros H.
  apply lookup_app_Some in H as [H|[_ H]];
    apply lookup_replicate in H as [-> _]; auto.
Qed.

Lemma tally_boot f p callers :
  f (In_run R_while) = O → f Idle = O →
  tally f (threads (boot p callers)) = O.
Proof.
  intros H1 H2. unfold boot. cbn [threads].
  rewrite tally_app, !tally_replicate, H1, H2. lia.
Qed.

Lemma invariant_boot p callers :
  0 < m_max_requests p <= INT_MAX → m_threads p ≠ [] → m_workqueue p = [] →
  m_queuelocker p = None → m_queuestat p = 0 →
  invariant (boot p callers) [].
Proof.
  intros Hmax Hth Hq Hl Hs. split; [|split].
  - split.
    + intros i t Hi.
      apply lookup_boot in Hi as [-> | ->]; simpl; rewrite Hl; done.
    + intros i. cbn [boot pool]. by rewrite Hl.
  - split; rewrite ?(tally_boot owed) by done; cbn [boot pool];
      rewrite ?Hq, ?Hs; simpl; try lia.
    + intros i t Hi. apply lookup_boot in Hi as [-> | ->]; done.
    + exists O, R_while. destruct (m_threads p); [done|reflexivity].
  - split; cbn [boot pool]; rewrite ?Hq; try done.
    + intros h. rewrite (tally_boot (holding h)); done.
    + intros h. rewrite (tally_boot (accepting h)); done.
    + pose proof (tally_boot owed p callers eq_refl eq_refl) as Ht.
      cbn [boot threads pool] in *. rewrite Hs.
      unfold failed_waits, empty_passes. simpl. lia.
Qed.

Lemma reachable_invariant thread_number max_requests s tr :
  reachable thread_number max_requests s tr → invariant s tr.
Proof.
  intros (sys & p & callers & sch & _ & [_ Hint] & Hctor & Hexec).
  apply ctor_constructed in Hctor as (Htn & Hmr & ->).
  change tr with ([] ++ tr). eapply invariant_exec; [|done].
  apply invariant_boot; simpl; try done.
  destruct (Z.to_nat thread_number) eqn:Hn; [lia|done].
Qed.

(** Induction over the runs of the machine, with the invariants at
    hand. *)
Lemma exec_invariant (J : system → list event → Prop) :
  (∀ s tr evs s', invariant s tr → J s tr → sys_step s evs s' →
                  J s' (tr ++ evs)) →
  ∀ sch s tr s' evs,
    invariant s tr → J s tr → exec sch s = Some (s', evs) →
    J s' (tr ++ evs).
Proof.
  intros Hstep. induction sch as [|a sch IH]; intros s tr s' evs Hinv HJ; simpl.
  - intros [= <- <-]. by rewrite app_nil_r.
  - destruct (do_action a s) as [[s1 e1]|] eqn:Ha; [|done].
    destruct (exec sch s1) as [[s2 e2]|] eqn:He; [|done].
    intros [= <- <-]. rewrite app_assoc.
    apply do_action_sys_step in Ha.
    eapply IH; [|by eapply Hstep|done]. by eapply invariant_step.
Qed.

Lemma reachable_invariant_with (J : system → list event → Prop)
    thread_number max_requests s tr :
  (∀ callers,
     J (boot (mk_threadpool thread_number (seq 0 (Z.to_nat thread_number))
                max_requests [] None 0 false) callers) []) →
  (∀ s tr evs s', invariant s tr → J s tr → sys_step s evs s' →
                  J s' (tr ++ evs)) →
  reachable thread_number max_requests s tr → J s tr.
Proof.
  intros Hboot Hstep (sys & p & callers & sch & _ & [_ Hint] & Hctor & Hexec).
  apply ctor_constructed in Hctor as (Htn & Hmr & ->).
  change tr with ([] ++ tr). eapply exec_invariant; [done| |done|done].
  apply invariant_boot; simpl; try done.
  destruct (Z.to_nat thread_number) eqn:Hn; [lia|done].
Qed.


(** ** Sequential behaviour of [append] and [run] *)

Lemma queue_full_false p :
  int_range (m_max_requests p) →
  Z.of_nat (length (m_workqueue p)) < m_max_requests p →
  queue_full p = false.
Proof.
  intros [_ Hhi] Hlt. unfold queue_full, size_t_of_int.
  rewrite Z.mod_small; [lia|]. unfold INT_MAX, SIZE_MODULUS in *. lia.
Qed.

Lemma append_room i request p :
  m_queuelocker p = None → queue_full p = false →
  append i request p
  = Some (true,
          mk_threadpool (m_thread_number p) (m_threads p) (m_max_requests p)
            (m_workqueue p ++ [request]) None (m_queuestat p + 1) (m_stop p),
          [Ev_push request]).
Proof.
  destruct p as [tn th mr q l c st]. simpl. intros -> Hfull.
  cbv [append bind gets queuelocker_lock locker.lock]. simpl.
  unfold queue_full in *. simpl in *. rewrite Hfull.
  cbv [push_back bind modify emit queuelocker_unlock locker.unlock
       queuestat_post sem.post ret]. simpl.
  by rewrite Nat.eqb_refl.
Qed.

Lemma append_full i request p :
  m_queuelocker p = None → queue_full p = true →
  append i request p = Some (false, p, []).
Proof.
  destruct p as [tn th mr q l c st]. simpl. intros -> Hfull.
  cbv [append bind gets queuelocker_lock locker.lock]. simpl.
  unfold queue_full in *. simpl in *. rewrite Hfull.
  cbv [bind queuelocker_unlock locker.unlock ret]. simpl.
  by rewrite Nat.eqb_refl.
Qed.

(** Unfolding one statement of the statement-by-statement executions. *)
Lemma append_from_S fuel i request pc p :
  (∀ b, pc ≠ A_return b) →
  append_from (S fuel) i request pc p
  = match append_step i request pc p with
    | Some (pc', p1, e1) =>
        match append_from fuel i request pc' p1 with
        | Some (b, p2, e2) => Some (b, p2, e1 ++ e2)
        | None => None
        end
    | None => None
    end.
Proof.
  intros Hpc. destruct pc; try reflexivity. by destruct (Hpc b).
Qed.

Lemma run_from_S b fuel i pc p :
  run_from b (S fuel) i pc p
  = match run_step b i pc p with
    | Some (pc', p1, e1) =>
        match
          match pc' with
          | R_while => ret tt p1
          | _ => run_from b fuel i pc' p1
          end
        with
        | Some (u, p2, e2) => Some (u, p2, e1 ++ e2)
        | None => None
        end
    | None => None
    end.
Proof.
  cbn [run_from]. unfold bind at 1.
  destruct (run_step b i pc p) as [[[pc' p1] e1]|]; [|done]. by destruct pc'.
Qed.

Ltac append_one :=
  rewrite append_from_S by done;
  cbv [append_step bind ret gets modify emit queuelocker_lock
       queuelocker_unlock queuestat_post push_back locker.lock locker.unlock
       sem.post];
  cbn [m_queuelocker m_queuestat m_workqueue m_max_requests m_thread_number
       m_threads m_stop with_queuelocker with_queuestat with_workqueue app];
  rewrite ?Nat.eqb_refl.

Ltac run_one :=
  rewrite run_from_S;
  cbv [run_step bind ret gets emit queuelocker_lock queuelocker_unlock
       queuestat_wait front pop_front locker.lock locker.unlock sem.wait];
  cbn [m_queuelocker m_queuestat m_workqueue m_max_requests m_thread_number
       m_threads m_stop with_queuelocker with_queuestat with_workqueue app];
  rewrite ?Nat.eqb_refl.

(** The statement-by-statement execution of a call, left alone, is the
    member function. *)
Lemma append_from_lock i request p :
  append_from 6 i request A_lock p = append i request p.
Proof.
  destruct p as [tn th mr q [j|] c st]; [reflexivity|].
  destruct (queue_full (mk_threadpool tn th mr q None c st)) eqn:Hfull.
  - rewrite append_full by done.
    do 2 append_one.
    change (queue_full _) with (queue_full (mk_threadpool tn th mr q None c st)).
    rewrite Hfull. cbv iota. append_one. reflexivity.
  - rewrite append_room by done.
    do 2 append_one.
    change (queue_full _) with (queue_full (mk_threadpool tn th mr q None c st)).
    rewrite Hfull. cbv iota. do 3 append_one. reflexivity.
Qed.

(** Once the capacity check is behind, no statement of the call changes
    the value it will return. *)
Lemma decided_stable i request pc p pc' p' evs b :
  append_step i request pc p = Some (pc', p', evs) →
  decided pc = Some b → decided pc' = Some b.
Proof.
  destruct pc; simpl; try done;
    cbv [bind queuelocker_unlock push_back queuestat_post modify emit ret];
    repeat case_match; try done; intros [= <- <- <-]; done.
Qed.

(** The value announced by [decided] is the one the call returns. *)
Lemma decided_sound fuel : ∀ i request pc p b b' p' evs,
  decided pc = Some b →
  append_from fuel i request pc p = Some (b', p', evs) → b' = b.
Proof.
  induction fuel as [|fuel IH]; intros i request pc p b b' p' evs Hd.
  - destruct pc; simpl; try done. cbv [ret]. simpl in Hd. congruence.
  - destruct pc as [| | | | | |b0]; try done; cbn [append_from].
    5: { cbv [ret]. simpl in Hd. congruence. }
    all: unfold bind at 1;
      destruct (append_step _ _ _ _) as [[[pc1 p1] e1]|] eqn:Hs; [|done];
      pose proof (decided_stable _ _ _ _ _ _ _ _ Hs Hd) as Hd1;
      destruct (append_from fuel i request pc1 p1)
        as [[[b2 p2] e2]|] eqn:Hrest; [|done];
      intros [= <- <- <-]; by eapply IH.
Qed.

(** What [wait()] does: it takes a unit, or fails when interrupted. *)
Lemma queuestat_wait_unit b p :
  0 < m_queuestat p →
  queuestat_wait b p = Some (true, with_queuestat (m_queuestat p - 1) p, []).
Proof.
  intros Hc. unfold queuestat_wait, sem.wait.
  by destruct (Z.ltb_spec 0 (m_queuestat p)); [|lia].
Qed.

Lemma queuestat_wait_blocks p :
  m_queuestat p <= 0 → queuestat_wait false p = None.
Proof.
  intros Hc. unfold queuestat_wait, sem.wait.
  by destruct (Z.ltb_spec 0 (m_queuestat p)); [lia|].
Qed.

Lemma queuestat_wait_fails p :
  m_queuestat p <= 0 →
  queuestat_wait true p
  = Some (false, with_queuestat (m_queuestat p) p, [Ev_wait_failed]).
Proof.
  intros Hc. unfold queuestat_wait, sem.wait.
  by destruct (Z.ltb_spec 0 (m_queuestat p)); [lia|].
Qed.

Lemma run_body_pop b j p request q :
  m_workqueue p = request :: q → 0 < m_queuestat p → m_queuelocker p = None →
  run_body b j p
  = Some (tt,
          mk_threadpool (m_thread_number p) (m_threads p) (m_max_requests p)
            q None (m_queuestat p - 1) (m_stop p),
          Ev_pop request
            :: (if is_null request then [Ev_skip request]
                else [Ev_process request])).
Proof.
  intros Hq Hc Hl. unfold run_body. unfold bind at 1.
  rewrite queuestat_wait_unit by done.
  destruct p as [tn th mr q0 l c st]. simpl in *. subst q0 l.
  cbv [bind queuelocker_lock locker.lock gets front pop_front
       queuelocker_unlock locker.unlock emit with_queuestat]. simpl.
  rewrite Nat.eqb_refl. by destruct (is_null request).
Qed.

Lemma run_body_empty b j p :
  m_workqueue p = [] → 0 < m_queuestat p → m_queuelocker p = None →
  run_body b j p
  = Some (tt,
          mk_threadpool (m_thread_number p) (m_threads p) (m_max_requests p)
            [] None (m_queuestat p - 1) (m_stop p),
          [Ev_empty]).
Proof.
  intros Hq Hc Hl. unfold run_body. unfold bind at 1.
  rewrite queuestat_wait_unit by done.
  destruct p as [tn th mr q0 l c st]. simpl in *. subst q0 l.
  cbv [bind queuelocker_lock locker.lock gets queuelocker_unlock
       locker.unlock emit with_queuestat]. simpl.
  by rewrite Nat.eqb_refl.
Qed.

(** A pass whose [wait()] fails goes on to the mutex all the same: on an
    empty queue it leaves the pool as it was, on a queue that is not it
    takes the first request without having taken a unit. *)
Lemma run_body_failed_empty j p :
  m_workqueue p = [] → m_queuestat p <= 0 → m_queuelocker p = None →
  run_body true j p = Some (tt, p, [Ev_wait_failed; Ev_empty]).
Proof.
  intros Hq Hc Hl. unfold run_body. unfold bind at 1.
  rewrite queuestat_wait_fails by done.
  destruct p as [tn th mr q0 l c st]. simpl in *. subst q0 l.
  cbv [bind queuelocker_lock locker.lock gets queuelocker_unlock
       locker.unlock emit with_queuestat]. simpl.
  by rewrite Nat.eqb_refl.
Qed.

Lemma run_body_failed_pop j p request q :
  m_workqueue p = request :: q → m_queuestat p <= 0 → m_queuelocker p = None →
  run_body true j p
  = Some (tt, with_workqueue q p,
          Ev_wait_failed :: Ev_pop request
            :: (if is_null request then [Ev_skip request]
                else [Ev_process request])).
Proof.
  intros Hq Hc Hl. unfold run_body. unfold bind at 1.
  rewrite queuestat_wait_fails by done.
  destruct p as [tn th mr q0 l c st]. simpl in *. subst q0 l.
  cbv [bind queuelocker_lock locker.lock gets front pop_front
       queuelocker_unlock locker.unlock emit with_queuestat with_workqueue].
  simpl. rewrite Nat.eqb_refl. by destruct (is_null request).
Qed.

Lemma run_body_blocks j p :
  m_queuestat p <= 0 → run_body false j p = None.
Proof.
  intros Hc. unfold run_body. unfold bind at 1.
  by rewrite queuestat_wait_blocks.
Qed.

(** The statement-by-statement execution of one iteration, left alone, is
    the loop body. *)
Lemma run_from_wait b i p : run_from b 8 i R_wait p = run_body b i p.
Proof.
  destruct p as [tn th mr q l c st].
  destruct (Z.ltb_spec 0 c) as [Hc|Hc].
  - destruct l as [j|].
    + run_one. destruct (Z.ltb_spec 0 c); [|lia]. run_one.
      cbv [run_body bind queuestat_wait sem.wait queuelocker_lock locker.lock].
      cbn [m_queuestat m_queuelocker with_queuestat].
      by destruct (Z.ltb_spec 0 c); [|lia].
    + destruct q as [|request q].
      * rewrite run_body_empty by done.
        run_one. destruct (Z.ltb_spec 0 c); [|lia]. do 3 run_one.
        reflexivity.
      * rewrite (run_body_pop b i _ request q) by done.
        run_one. destruct (Z.ltb_spec 0 c); [|lia]. do 6 run_one.
        destruct (is_null request); cbv [ret]; [reflexivity|].
        run_one. reflexivity.
  - destruct b.
    + destruct l as [j|].
      * run_one. destruct (Z.ltb_spec 0 c); [lia|]. run_one.
        cbv [run_body bind queuestat_wait sem.wait queuelocker_lock
             locker.lock].
        cbn [m_queuestat m_queuelocker with_queuestat].
        by destruct (Z.ltb_spec 0 c); [lia|].
      * destruct q as [|request q].
        -- rewrite run_body_failed_empty by done.
           run_one. destruct (Z.ltb_spec 0 c); [lia|]. do 3 run_one.
           reflexivity.
        -- rewrite (run_body_failed_pop i _ request q) by done.
           run_one. destruct (Z.ltb_spec 0 c); [lia|]. do 6 run_one.
           destruct (is_null request); cbv [ret]; [reflexivity|].
           run_one. reflexivity.
    + run_one.
      rewrite run_body_blocks by done.
      by destruct (Z.ltb_spec 0 c); [lia|].
Qed.

(** ** Reachability *)

Lemma spawn_succeeds sys n i :
  (∀ k, create_ok sys k = true ∧ detach_ok sys k = true) →
  spawn sys n i = (true, (i + n)%nat).
Proof.
  intros Hok. revert i. induction n as [|n IH]; intros i; simpl.
  - f_equal. lia.
  - destruct (Hok i) as [-> ->]. rewrite IH. f_equal. lia.
Qed.

Lemma ctor_succeeds sys thread_number max_requests :
  0 < thread_number → 0 < max_requests → os_grants sys →
  threadpool_ctor sys thread_number max_requests
  = mk_ctor_run
      (Constructed (mk_threadpool thread_number
                      (seq 0 (Z.to_nat thread_number)) max_requests
                      [] None 0 false))
      (Z.to_nat thread_number).
Proof.
  intros Htn Hmr (Hm & Hs & Hok). unfold threadpool_ctor, bad_arguments.
  rewrite Hm, Hs. simpl.
  destruct (Z.leb_spec thread_number 0); [lia|].
  destruct (Z.leb_spec max_requests 0); [lia|]. simpl.
  by rewrite spawn_succeeds.
Qed.

Lemma generous_grants : os_grants generous.
Proof. by repeat split. Qed.

Lemma reachable_by_schedule thread_number max_requests callers sch s tr :
  0 < thread_number <= INT_MAX → 0 < max_requests <= INT_MAX →
  exec sch (boot (mk_threadpool thread_number
                    (seq 0 (Z.to_nat thread_number)) max_requests
                    [] None 0 false) callers) = Some (s, tr) →
  reachable thread_number max_requests s tr.
Proof.
  intros Htn Hmr Hexec.
  eexists generous, _, callers, sch.
  split; [unfold int_range, INT_MIN; lia|].
  split; [unfold int_range, INT_MIN; lia|].
  split; [|exact Hexec].
  rewrite ctor_succeeds; [done|lia|lia|apply generous_grants].
Qed.

(** Reachability of a concrete state, by running a schedule. *)
Ltac by_schedule callers sch :=
  apply (reachable_by_schedule _ _ callers sch);
  [unfold INT_MAX; lia | unfold INT_MAX; lia | reflexivity].

Lemma sys_step_max_requests s evs s' :
  sys_step s evs s' → m_max_requests (pool s') = m_max_requests (pool s).
Proof.
  destruct 1 as [| ? ? ? ? ? ? ? Htr |]; try done. by destruct Htr.
Qed.

Lemma exec_max_requests sch : ∀ s s' evs,
  exec sch s = Some (s', evs) →
  m_max_requests (pool s') = m_max_requests (pool s).
Proof.
  induction sch as [|a sch IH]; intros s s' evs; simpl.
  - by intros [= <- <-].
  - destruct (do_action a s) as [[s1 e1]|] eqn:Ha; [|done].
    destruct (exec sch s1) as [[s2 e2]|] eqn:He; [|done].
    intros [= <- <-]. rewrite (IH _ _ _ He).
    eauto using sys_step_max_requests, do_action_sys_step.
Qed.

Lemma reachable_max_requests thread_number max_requests s tr :
  reachable thread_number max_requests s tr →
  m_max_requests (pool s) = max_requests.
Proof.
  intros (sys & p & callers & sch & _ & _ & Hctor & Hexec).
  apply ctor_constructed in Hctor as (_ & _ & ->).
  by rewrite (exec_max_requests _ _ _ _ Hexec).
Qed.

Lemma exec_app sch1 sch2 s s1 e1 s2 e2 :
  exec sch1 s = Some (s1, e1) → exec sch2 s1 = Some (s2, e2) →
  exec (sch1 ++ sch2) s = Some (s2, e1 ++ e2).
Proof.
  revert s e1. induction sch1 as [|a sch1 IH]; intros s e1; simpl.
  - by intros [= <- <-].
  - destruct (do_action a s) as [[s' e']|]; [|done].
    destruct (exec sch1 s') as [[s'' e'']|] eqn:He; [|done].
    intros [= <- <-] H2. rewrite (IH _ _ He H2). by rewrite app_assoc.
Qed.

Lemma reachable_exec thread_number max_requests s tr sch s' evs :
  reachable thread_number max_requests s tr →
  exec sch s = Some (s', evs) →
  reachable thread_number max_requests s' (tr ++ evs).
Proof.
  intros (sys & p & callers & sch0 & Htn & Hmr & Hctor & Hexec) Hmore.
  exists sys, p, callers, (sch0 ++ sch).
  eauto using exec_app.
Qed.

(** ** The claims *)

(** C3. In every state reachable from a freshly constructed pool, whatever
    the interleaving of [append] calls and worker steps, the queue holds
    at most [max_requests] requests. *)
Theorem workqueue_bounded thread_number max_requests s tr :
  reachable thread_number max_requests s tr →
  Z.of_nat (length (m_workqueue (pool s))) <= max_requests.
Proof.
  intros Hr. rewrite <- (reachable_max_requests _ _ _ _ Hr).
  apply reachable_invariant in Hr as (_ & Hst & _). apply Hst.
Qed.

Lemma workqueue_bounded_witness :
  ∃ s tr, reachable 2 1 s tr ∧ m_workqueue (pool s) = [5]
          ∧ Z.of_nat (length (m_workqueue (pool s))) <= 1.
Proof.
  assert (Hr : reachable 2 1
                 (mk_system (mk_threadpool 2 [0; 1]%nat 1 [5] None 1 false)
                    [In_run R_while; In_run R_while; In_append (A_return false) 6;
                     In_append (A_return true) 5])
                 [Ev_push 5]).
  { by_schedule 2%nat
      [Call 3%nat 5; Call 2%nat 6; Step 3%nat; Step 3%nat; Step 3%nat;
       Step 3%nat; Step 2%nat; Step 2%nat; Step 2%nat; Step 3%nat]. }
  eexists _, _. split; [exact Hr|]. split; [reflexivity|].
  exact (workqueue_bounded 2 1 _ _ Hr).
Defined.

(** C2. [append] returns [false] exactly when the queue holds
    [max_requests] requests at the capacity check, and [true] otherwise:
    first for a call that runs undisturbed from a reachable state whose
    mutex is free, then for the check statement itself in an arbitrary
    interleaving, where the branch taken fixes the value the call
    returns ([decided], see [decided_stable] and [decided_sound]). *)
Theorem append_false_iff_queue_full thread_number max_requests s tr i request :
  reachable thread_number max_requests s tr →
  (m_queuelocker (pool s) = None →
   ∃ b p' evs,
     append i request (pool s) = Some (b, p', evs)
     ∧ (b = false ↔ Z.of_nat (length (m_workqueue (pool s))) = max_requests)
     ∧ (b = true ↔ Z.of_nat (length (m_workqueue (pool s))) ≠ max_requests))
  ∧ (threads s !! i = Some (In_append A_check request) →
     ∃ pc' b,
       do_action (Step i) s
       = Some (mk_system (pool s) (<[i := In_append pc' request]> (threads s)), [])
       ∧ decided pc' = Some b
       ∧ (b = false ↔ Z.of_nat (length (m_workqueue (pool s))) = max_requests)
       ∧ (b = true ↔ Z.of_nat (length (m_workqueue (pool s))) ≠ max_requests)).
Proof.
  intros Hr. pose proof (reachable_max_requests _ _ _ _ Hr) as Hmr.
  apply reachable_invariant in Hr as (_ & [Hmax _ Hbound _ _] & _).
  pose proof (queue_full_spec _ Hmax) as Hfull. rewrite Hmr in *.
  split.
  - intros Hfree. destruct (queue_full (pool s)) eqn:Hq.
    + exists false, (pool s), []. rewrite append_full by done.
      split; [done|]. split; split; try done; lia.
    + eexists true, _, _. rewrite append_room by done.
      split; [done|]. split; split; try done; lia.
  - intros Hi. simpl. rewrite Hi. simpl.
    cbv [bind gets ret]. destruct (queue_full (pool s)) eqn:Hq.
    + exists A_unlock_full, false. repeat split; try done; lia.
    + exists A_push, true. repeat split; try done; lia.
Qed.

Lemma append_false_iff_queue_full_witness :
  ∃ b p' evs,
    append 3%nat 9 (mk_threadpool 2 [0; 1]%nat 1 [5] None 1 false)
    = Some (b, p', evs) ∧ b = false.
Proof.
  assert (Hr : reachable 2 1
                 (mk_system (mk_threadpool 2 [0; 1]%nat 1 [5] None 1 false)
                    [In_run R_while; In_run R_while; Idle; Idle])
                 [Ev_push 5; Ev_return 5 true]).
  { by_schedule 2%nat
      [Call 3%nat 5; Step 3%nat; Step 3%nat; Step 3%nat;
       Step 3%nat; Step 3%nat; Step 3%nat]. }
  destruct (append_false_iff_queue_full 2 1 _ _ 3%nat 9 Hr) as [Hseq _].
  destruct (Hseq eq_refl) as (b & p' & evs & Happ & Hb & _).
  exists b, p', evs. split; [exact Happ|]. apply Hb. reflexivity.
Defined.

(** C4. The queue is first-in first-out: in every reachable state the
    requests pushed so far are the requests popped so far followed by the
    queue's content; every move of the system leaves the queue alone,
    adds one request at its tail, or removes its head, and the worker
    that removes the head is the one left holding it. *)
Theorem workqueue_fifo thread_number max_requests s tr :
  reachable thread_number max_requests s tr →
  pushes tr = pops tr ++ m_workqueue (pool s)
  ∧ ∀ a s' evs,
      do_action a s = Some (s', evs) →
      (m_workqueue (pool s') = m_workqueue (pool s)
       ∧ pushes evs = [] ∧ pops evs = [])
      ∨ (∃ r, m_workqueue (pool s') = m_workqueue (pool s) ++ [r]
              ∧ pushes evs = [r] ∧ pops evs = [])
      ∨ (∃ h i, m_workqueue (pool s) = h :: m_workqueue (pool s')
                ∧ pushes evs = [] ∧ pops evs = [h]
                ∧ a = Step i
                ∧ threads s' !! i = Some (In_run (R_unlock h))).
Proof.
  intros Hr. apply reachable_invariant in Hr as (_ & Hst & Hh).
  split; [apply Hh|].
  intros a s' evs Ha. destruct a as [j r|j|j|]; cbn [do_action] in Ha.
  - destruct (threads s !! j) as [[| |]|]; try done.
    injection Ha as <- <-. by left.
  - destruct (threads s !! j) as [t|] eqn:Hi; [|done].
    destruct (thread_step false j t (pool s)) as [[[t' p'] e]|] eqn:Hs; [|done].
    injection Ha as <- <-. apply thread_step_transition in Hs.
    pose proof (inv_local _ Hst _ _ Hi) as Hli.
    destruct Hs; simpl; auto.
    + right. left. by exists r.
    + right. right. exists h, j. simpl in Hli. rewrite H in Hli.
      injection Hli as ->. repeat split; try done.
      apply list_lookup_insert_eq. by eapply lookup_lt_Some.
  - destruct (threads s !! j) as [[| |[]]|] eqn:Hi; try done.
    destruct (0 <? m_queuestat (pool s)); [done|].
    destruct (thread_step true j (In_run R_wait) (pool s))
      as [[[t' p'] e]|] eqn:Hs; [|done].
    injection Ha as <- <-. apply thread_step_transition in Hs.
    inversion Hs; subst; simpl; auto.
  - injection Ha as <- <-. by left.
Qed.

Lemma workqueue_fifo_witness :
  ∃ s tr, reachable 1 2 s tr
          ∧ pushes tr = [5; 6] ∧ pops tr = [5] ∧ m_workqueue (pool s) = [6]
          ∧ pushes tr = pops tr ++ m_workqueue (pool s).
Proof.
  assert (Hr : reachable 1 2
                 (mk_system (mk_threadpool 1 [0%nat] 2 [6] (Some 0%nat) 1 false)
                    [In_run (R_unlock 5); Idle; Idle])
                 [Ev_push 5; Ev_return 5 true; Ev_push 6; Ev_return 6 true;
                  Ev_pop 5]).
  { by_schedule 2%nat
      [Call 1%nat 5; Step 1%nat; Step 1%nat; Step 1%nat; Step 1%nat;
       Step 1%nat; Step 1%nat;
       Call 2%nat 6; Step 2%nat; Step 2%nat; Step 2%nat; Step 2%nat;
       Step 2%nat; Step 2%nat;
       Step 0%nat; Step 0%nat; Step 0%nat; Step 0%nat; Step 0%nat;
       Step 0%nat]. }
  eexists _, _. split; [exact Hr|].
  split; [reflexivity|]. split; [reflexivity|]. split; [reflexivity|].
  exact (proj1 (workqueue_fifo 1 2 _ _ Hr)).
Defined.

(** C5. On a pool whose queue holds fewer than [max_requests] requests
    (and whose mutex is free, so that the call proceeds), [append]
    puts the request at the tail of the queue, raises the semaphore count
    by exactly one and returns [true]; nothing else changes. *)
Theorem append_enqueues_and_posts i request p :
  int_range (m_max_requests p) →
  m_queuelocker p = None →
  Z.of_nat (length (m_workqueue p)) < m_max_requests p →
  append i request p
  = Some (true,
          mk_threadpool (m_thread_number p) (m_threads p) (m_max_requests p)
            (m_workqueue p ++ [request]) None (m_queuestat p + 1) (m_stop p),
          [Ev_push request]).
Proof.
  intros Hint Hfree Hroom. apply append_room; [done|].
  by apply queue_full_false.
Qed.

Lemma append_enqueues_and_posts_witness :
  append 4%nat 8 (mk_threadpool 2 [0; 1]%nat 3 [5; 6] None 2 false)
  = Some (true, mk_threadpool 2 [0; 1]%nat 3 [5; 6; 8] None 3 false, [Ev_push 8]).
Proof.
  apply (append_enqueues_and_posts 4%nat 8
           (mk_threadpool 2 [0; 1]%nat 3 [5; 6] None 2 false)).
  - unfold int_range, INT_MIN, INT_MAX. simpl. lia.
  - reflexivity.
  - simpl. lia.
Defined.

(** C7. The constructor throws, having started no thread, whenever
    [thread_number <= 0] or [max_requests <= 0]; with both arguments
    positive the argument check passes, and the object is built once the
    operating system has granted the mutex, the semaphore and every
    thread. *)
Theorem ctor_rejects_bad_arguments sys thread_number max_requests :
  (thread_number <= 0 ∨ max_requests <= 0 →
   threadpool_ctor sys thread_number max_requests = mk_ctor_run Thrown 0)
  ∧ (0 < thread_number → 0 < max_requests →
     bad_arguments thread_number max_requests = false
     ∧ (os_grants sys →
        threadpool_ctor sys thread_number max_requests
        = mk_ctor_run
            (Constructed (mk_threadpool thread_number
                            (seq 0 (Z.to_nat thread_number)) max_requests
                            [] None 0 false))
            (Z.to_nat thread_number))).
Proof.
  split.
  - intros Hbad. unfold threadpool_ctor, bad_arguments.
    destruct (locker.ctor _); [|done]. destruct (sem.ctor _); [|done].
    destruct (Z.leb_spec thread_number 0); [done|].
    destruct (Z.leb_spec max_requests 0); [done|]. lia.
  - intros Htn Hmr. split; [|by apply ctor_succeeds].
    unfold bad_arguments.
    destruct (Z.leb_spec thread_number 0); [lia|].
    destruct (Z.leb_spec max_requests 0); [lia|]. done.
Qed.

Lemma ctor_rejects_bad_arguments_witness :
  threadpool_ctor generous 0 10000 = mk_ctor_run Thrown 0
  ∧ threadpool_ctor generous 8 (-1) = mk_ctor_run Thrown 0
  ∧ bad_arguments 8 10000 = false.
Proof.
  split; [|split].
  - apply (proj1 (ctor_rejects_bad_arguments generous 0 10000)). left. lia.
  - apply (proj1 (ctor_rejects_bad_arguments generous 8 (-1))). right. lia.
  - apply (proj2 (ctor_rejects_bad_arguments generous 8 10000)); lia.
Defined.

(** C8. A worker that takes a null request off the queue drops it: the
    request leaves the queue, nothing is processed, the loop body ends
    normally and the loop goes on from its top with the remaining queue;
    in the interleaving machine the null test sends the worker straight
    back to the loop test.  (Whether a signal is pending makes no
    difference, the semaphore count being positive.) *)
Theorem null_request_skipped j p q :
  m_workqueue p = NULL :: q → 0 < m_queuestat p → m_queuelocker p = None →
  let p' := mk_threadpool (m_thread_number p) (m_threads p) (m_max_requests p)
              q None (m_queuestat p - 1) (m_stop p) in
  (∀ interrupted,
     run_body interrupted j p = Some (tt, p', [Ev_pop NULL; Ev_skip NULL]))
  ∧ (∀ signals fuel, m_stop p = false →
       run signals (S fuel) j p
       = (emit (Ev_pop NULL) ;; emit (Ev_skip NULL) ;; run signals fuel j) p')
  ∧ (∀ interrupted k p0,
       thread_step interrupted k (In_run (R_null NULL)) p0
       = Some (In_run R_while, p0, [Ev_skip NULL])).
Proof.
  intros Hq Hc Hfree p'.
  assert (Hbody : ∀ b, run_body b j p
                       = Some (tt, p', [Ev_pop NULL; Ev_skip NULL])).
  { intros b. by rewrite (run_body_pop b j p NULL q). }
  split; [done|]. split; [|done].
  intros signals fuel Hstop. cbn [run]. unfold bind at 1. unfold gets at 1.
  rewrite Hstop. unfold bind at 1. rewrite Hbody.
  cbv [bind emit]. by destruct (run signals fuel j p') as [[[b p''] e]|].
Qed.

Lemma null_request_skipped_witness :
  run_body false 0%nat (mk_threadpool 1 [0%nat] 4 [NULL; 7] None 2 false)
  = Some (tt, mk_threadpool 1 [0%nat] 4 [7] None 1 false,
          [Ev_pop NULL; Ev_skip NULL]).
Proof.
  apply (null_request_skipped 0%nat
           (mk_threadpool 1 [0%nat] 4 [NULL; 7] None 2 false) [7]).
  - reflexivity.
  - simpl. lia.
  - reflexivity.
Defined.

(** C10. [append] does not look at the handle: on a pool with room (and
    a free mutex) [append(NULL)] returns [true] and leaves [NULL] at the
    tail of the queue, where it takes up a slot like any request (if that
    slot was the last one, the next [append] is refused), and no skip
    happens before a worker takes the handle off the queue. *)
Theorem append_accepts_null i p :
  int_range (m_max_requests p) →
  m_queuelocker p = None →
  Z.of_nat (length (m_workqueue p)) < m_max_requests p →
  let p' := mk_threadpool (m_thread_number p) (m_threads p) (m_max_requests p)
              (m_workqueue p ++ [NULL]) None (m_queuestat p + 1) (m_stop p) in
  append i NULL p = Some (true, p', [Ev_push NULL])
  ∧ Z.of_nat (length (m_workqueue p')) = Z.of_nat (length (m_workqueue p)) + 1
  ∧ (Z.of_nat (length (m_workqueue p)) + 1 = m_max_requests p →
     ∀ j request, append j request p' = Some (false, p', []))
  ∧ (m_workqueue p = [] → 0 <= m_queuestat p →
     ∀ interrupted j,
       run_body interrupted j p'
       = Some (tt,
               mk_threadpool (m_thread_number p) (m_threads p)
                 (m_max_requests p) [] None (m_queuestat p) (m_stop p),
               [Ev_pop NULL; Ev_skip NULL])).
Proof.
  intros Hint Hfree Hroom p'. split; [|split; [|split]].
  - apply append_room; [done|]. by apply queue_full_false.
  - subst p'. cbn [m_workqueue]. rewrite length_app. cbn [length]. lia.
  - intros Hlast j request. apply append_full; [done|].
    unfold queue_full, size_t_of_int. subst p'.
    cbn [m_workqueue m_max_requests]. rewrite length_app. cbn [length].
    destruct Hint as [_ Hhi]. unfold INT_MAX in Hhi.
    rewrite Z.mod_small; [apply Z.leb_le; lia|]. unfold SIZE_MODULUS. lia.
  - intros Hq Hsem b j. subst p'. rewrite Hq.
    rewrite (run_body_pop b j _ NULL []); cbn; [|done|lia|done].
    do 3 f_equal. f_equal. lia.
Qed.

Lemma append_accepts_null_witness :
  append 1%nat NULL (mk_threadpool 1 [0%nat] 1 [] None 0 false)
  = Some (true, mk_threadpool 1 [0%nat] 1 [NULL] None 1 false, [Ev_push NULL]).
Proof.
  apply (append_accepts_null 1%nat (mk_threadpool 1 [0%nat] 1 [] None 0 false)).
  - unfold int_range, INT_MIN, INT_MAX. simpl. lia.
  - reflexivity.
  - simpl. lia.
Defined.

Lemma quiescent_tally s f :
  quiescent s → (∀ t, at_rest t = true → f t = O) →
  tally f (threads s) = O.
Proof.
  intros Hq Hf. apply tally_zero. eapply Forall_impl; [exact Hq|].
  simpl. auto.
Qed.

Lemma at_rest_owed t : at_rest t = true → owed t = O.
Proof. by destruct t as [|[] ?|[]]. Qed.

Lemma at_rest_holding h t : at_rest t = true → holding h t = O.
Proof. by destruct t as [|[] ?|[]]. Qed.

Lemma at_rest_accepting h t : at_rest t = true → accepting h t = O.
Proof. by destruct t as [|[] ?|[]]. Qed.

(** The state reached when a caller has pushed request 7 and released
    the mutex, the worker's [wait()] has then failed, the worker has gone
    on and served the request, and the caller has posted at last: nothing
    is under way, the queue is empty and the semaphore holds one unit. *)
Lemma unit_left_over :
  reachable 1 1
    (mk_system (mk_threadpool 1 [0%nat] 1 [] None 1 false)
               [In_run R_while; Idle])
    [Ev_push 7; Ev_wait_failed; Ev_pop 7; Ev_process 7; Ev_return 7 true].
Proof.
  by_schedule 1%nat
    [Step 0%nat; Call 1%nat 7; Step 1%nat; Step 1%nat; Step 1%nat; Step 1%nat;
     Interrupt 0%nat; Step 0%nat; Step 0%nat; Step 0%nat; Step 0%nat;
     Step 0%nat; Step 0%nat; Step 0%nat; Step 1%nat; Step 1%nat].
Qed.

(** C6, as the code has it.  The semaphore count and the queue length
    are tied by an account: the length plus the number of [wait()] calls
    that have failed is the count, plus the number of threads that have
    pushed without having posted yet or have returned from [wait()]
    without having popped or found the queue empty yet, plus the number
    of passes that have found the queue empty.  The count is never
    negative, and it is at least the queue length less those threads, so
    at least the queue length when no [append] call and no loop
    iteration is under way.  As long as no [wait()] has failed, no pass
    has found the queue empty, the count is exactly the length less those
    threads, never exceeds the length, and equals it when nothing is
    under way. *)
Theorem semaphore_accounts_for_queue thread_number max_requests s tr :
  reachable thread_number max_requests s tr →
  Z.of_nat (length (m_workqueue (pool s))) + Z.of_nat (failed_waits tr)
  = m_queuestat (pool s) + Z.of_nat (tally owed (threads s))
    + Z.of_nat (empty_passes tr)
  ∧ 0 <= m_queuestat (pool s)
  ∧ Z.of_nat (length (m_workqueue (pool s)))
    <= m_queuestat (pool s) + Z.of_nat (tally owed (threads s))
  ∧ (quiescent s →
     Z.of_nat (length (m_workqueue (pool s))) <= m_queuestat (pool s))
  ∧ (failed_waits tr = O →
     empty_passes tr = O
     ∧ Z.of_nat (length (m_workqueue (pool s)))
       = m_queuestat (pool s) + Z.of_nat (tally owed (threads s))
     ∧ m_queuestat (pool s) <= Z.of_nat (length (m_workqueue (pool s)))
     ∧ (quiescent s →
        m_queuestat (pool s) = Z.of_nat (length (m_workqueue (pool s))))).
Proof.
  intros Hr.
  apply reachable_invariant in Hr as (_ & [_ _ _ Hsem Hpos _] & Hh).
  pose proof (inv_account _ _ Hh) as Hacc.
  split; [done|]. split; [done|]. split; [done|]. split.
  - intros Hq. rewrite (quiescent_tally s owed Hq at_rest_owed) in Hsem. lia.
  - intros HF. rewrite HF in Hacc.
    split; [lia|]. split; [lia|]. split; [lia|].
    intros Hq. rewrite (quiescent_tally s owed Hq at_rest_owed) in Hacc, Hsem.
    lia.
Qed.

(** C6, counterexample.  In [post_pending] one caller has pushed request
    7 and released the mutex, and has not posted yet: no thread is inside
    a critical section, the queue holds one request and the semaphore
    count is 0. *)
Lemma semaphore_lags_after_unlock :
  reachable 1 1 post_pending [Ev_push 7]
  ∧ m_queuelocker (pool post_pending) = None
  ∧ Forall (λ t, holds_lock t = false) (threads post_pending)
  ∧ m_queuestat (pool post_pending)
    ≠ Z.of_nat (length (m_workqueue (pool post_pending))).
Proof.
  split; [|split; [|split]].
  - by_schedule 1%nat
            [Call 1%nat 7; Step 1%nat; Step 1%nat; Step 1%nat; Step 1%nat].
  - reflexivity.
  - repeat constructor.
  - simpl. lia.
Qed.

Lemma semaphore_accounts_for_queue_witness :
  (Z.of_nat (length (m_workqueue (pool post_pending)))
   = m_queuestat (pool post_pending)
     + Z.of_nat (tally owed (threads post_pending)))
  ∧ ∃ s tr, reachable 1 1 s tr ∧ quiescent s ∧ failed_waits tr = 1%nat
            ∧ m_workqueue (pool s) = [] ∧ m_queuestat (pool s) = 1
            ∧ Z.of_nat (length (m_workqueue (pool s))) <= m_queuestat (pool s).
Proof.
  split.
  - assert (Hr : reachable 1 1 post_pending [Ev_push 7]).
    { by_schedule 1%nat
        [Call 1%nat 7; Step 1%nat; Step 1%nat; Step 1%nat; Step 1%nat]. }
    destruct (semaphore_accounts_for_queue 1 1 post_pending _ Hr)
      as (_ & _ & _ & _ & H).
    exact (proj1 (proj2 (H eq_refl))).
  - eexists _, _. split; [exact unit_left_over|].
    assert (Hq : quiescent
                   (mk_system (mk_threadpool 1 [0%nat] 1 [] None 1 false)
                              [In_run R_while; Idle])).
    { repeat constructor. }
    split; [exact Hq|]. split; [reflexivity|].
    split; [reflexivity|]. split; [reflexivity|].
    destruct (semaphore_accounts_for_queue 1 1 _ _ unit_left_over)
      as (_ & _ & _ & H & _).
    exact (H Hq).
Defined.

(** ** The stop flag *)

Lemma run_step_ignores_stop interrupted i pc p b :
  pc ≠ R_while →
  run_step interrupted i pc (with_stop b p)
  = match run_step interrupted i pc p with
    | Some (pc', p', evs) => Some (pc', with_stop b p', evs)
    | None => None
    end.
Proof.
  intros Hpc. destruct p as [tn th mr q l c st].
  destruct pc; try done;
    cbv [run_step bind ret gets emit stuck queuelocker_lock queuelocker_unlock
         queuestat_wait front pop_front locker.lock locker.unlock sem.wait
         with_stop];
    simpl; repeat case_match; simplify_eq; done.
Qed.

Lemma exit_only_from_loop_test a s s' evs i :
  do_action a s = Some (s', evs) →
  threads s' !! i = Some (In_run R_exit) →
  threads s !! i = Some (In_run R_exit)
  ∨ (a = Step i ∧ threads s !! i = Some (In_run R_while)
     ∧ m_stop (pool s) = true).
Proof.
  destruct a as [j r|j|j|]; cbn [do_action].
  - destruct (threads s !! j) as [[| |]|] eqn:Hj; try done.
    intros [= <- <-]. simpl. intros Hi.
    apply list_lookup_insert_Some in Hi as [(_ & [=] & _)|(_ & Hi)]. auto.
  - destruct (threads s !! j) as [t|] eqn:Hj; [|done].
    destruct (thread_step false j t (pool s)) as [[[t' p'] e]|] eqn:Hs; [|done].
    intros [= <- <-]. simpl. intros Hi.
    apply list_lookup_insert_Some in Hi as [(-> & -> & _)|(_ & Hi)]; [|auto].
    apply thread_step_transition in Hs. inversion Hs; subst. auto.
  - destruct (threads s !! j) as [[| |[]]|] eqn:Hj; try done.
    destruct (0 <? m_queuestat (pool s)); [done|].
    destruct (thread_step true j (In_run R_wait) (pool s))
      as [[[t' p'] e]|] eqn:Hs; [|done].
    intros [= <- <-]. simpl. intros Hi.
    apply list_lookup_insert_Some in Hi as [(-> & -> & _)|(_ & Hi)]; [|auto].
    apply thread_step_transition in Hs. inversion Hs.
  - intros [= <- <-]. auto.
Qed.

(** A worker waiting on a zero semaphore while no [append] is under way
    keeps waiting through every move other than a new call and an
    interruption of its [wait()]. *)
Lemma blocked_worker_step a s s' evs i :
  threads s !! i = Some (In_run R_wait) →
  m_queuestat (pool s) = 0 →
  Forall (λ t, in_append t = false) (threads s) →
  is_call a = false → a ≠ Interrupt i →
  do_action a s = Some (s', evs) →
  threads s' !! i = Some (In_run R_wait)
  ∧ m_queuestat (pool s') = 0
  ∧ Forall (λ t, in_append t = false) (threads s')
  ∧ Ev_exit i ∉ evs.
Proof.
  intros Hi Hsem Hno Hcall Hint.
  destruct a as [j r|j|j|]; [done| | |]; cbn [do_action].
  - destruct (threads s !! j) as [t|] eqn:Hj; [|done].
    destruct (thread_step false j t (pool s)) as [[[t' p'] e]|] eqn:Hs; [|done].
    intros [= <- <-]. simpl.
    assert (Hin : in_append t = false).
    { by eapply (Forall_lookup_1 _ _ _ _ Hno). }
    destruct (decide (j = i)) as [->|Hne].
    + rewrite Hi in Hj. injection Hj as <-. simpl in Hs.
      unfold bind in Hs. by rewrite queuestat_wait_blocks in Hs by lia.
    + apply thread_step_transition in Hs.
      rewrite list_lookup_insert_ne by done.
      split; [done|].
      split; [destruct Hs; simpl in *; try done; lia|].
      split.
      * apply Forall_insert; [done|]. by destruct Hs.
      * destruct Hs; try apply not_elem_of_nil.
        all: intros Hel; apply list_elem_of_singleton in Hel; congruence.
  - destruct (threads s !! j) as [[| |[]]|] eqn:Hj; try done.
    destruct (0 <? m_queuestat (pool s)); [done|].
    destruct (thread_step true j (In_run R_wait) (pool s))
      as [[[t' p'] e]|] eqn:Hs; [|done].
    intros [= <- <-]. simpl. apply thread_step_transition in Hs.
    assert (Hne : j ≠ i) by congruence.
    rewrite list_lookup_insert_ne by done.
    split; [done|].
    split; [inversion Hs; subst; simpl; lia|].
    split.
    + apply Forall_insert; [done|]. by inversion Hs.
    + inversion Hs; subst; [apply not_elem_of_nil|].
      intros Hel. apply list_elem_of_singleton in Hel. congruence.
  - intros [= <- <-]. simpl. repeat split; try done. apply not_elem_of_nil.
Qed.

Lemma blocked_worker_exec sch : ∀ s s' evs i,
  threads s !! i = Some (In_run R_wait) →
  m_queuestat (pool s) = 0 →
  Forall (λ t, in_append t = false) (threads s) →
  Forall (λ a, is_call a = false ∧ a ≠ Interrupt i) sch →
  exec sch s = Some (s', evs) →
  threads s' !! i = Some (In_run R_wait)
  ∧ m_queuestat (pool s') = 0
  ∧ Ev_exit i ∉ evs.
Proof.
  induction sch as [|a sch IH]; intros s s' evs i Hi Hsem Hno Hsch; simpl.
  - intros [= <- <-]. repeat split; try done. apply not_elem_of_nil.
  - destruct (do_action a s) as [[s1 e1]|] eqn:Ha; [|done].
    destruct (exec sch s1) as [[s2 e2]|] eqn:He; [|done].
    intros [= <- <-]. inversion Hsch as [|? ? [Hcall Hint] Hsch']; subst.
    destruct (blocked_worker_step _ _ _ _ _ Hi Hsem Hno Hcall Hint Ha)
      as (Hi1 & Hsem1 & Hno1 & Hev1).
    destruct (IH _ _ _ _ Hi1 Hsem1 Hno1 Hsch' He) as (Hi2 & Hsem2 & Hev2).
    repeat split; try done.
    rewrite elem_of_app. intros [?|?]; done.
Qed.

Lemma wait_blocks i s :
  threads s !! i = Some (In_run R_wait) → m_queuestat (pool s) = 0 →
  do_action (Step i) s = None.
Proof.
  intros Hi Hsem. simpl. rewrite Hi. simpl.
  cbv [bind queuestat_wait sem.wait]. by rewrite Hsem.
Qed.

(** One statement of thread [i], in terms of [thread_step]. *)
Lemma do_step i t s t' p' evs :
  threads s !! i = Some t →
  thread_step false i t (pool s) = Some (t', p', evs) →
  do_action (Step i) s = Some (mk_system p' (<[i := t']> (threads s)), evs).
Proof. intros Hi Hs. cbn [do_action]. by rewrite Hi, Hs. Qed.

Lemma exec_cons a sch s s1 e1 :
  do_action a s = Some (s1, e1) →
  exec (a :: sch) s
  = match exec sch s1 with
    | Some (s2, e2) => Some (s2, e1 ++ e2)
    | None => None
    end.
Proof. intros Ha. cbn [exec]. by rewrite Ha. Qed.

(** A worker whose [wait()] is interrupted on a zero semaphore goes on to
    the mutex; if the mutex is free and the queue empty it takes the
    empty branch and is back at the loop test three statements later,
    the pool being what it was; if the stop flag is up by then, the
    fourth statement is its exit. *)
Lemma interrupted_pass i s :
  threads s !! i = Some (In_run R_wait) →
  m_queuestat (pool s) = 0 →
  m_queuelocker (pool s) = None →
  m_workqueue (pool s) = [] →
  exec [Interrupt i; Step i; Step i; Step i] s
  = Some (mk_system (pool s) (<[i := In_run R_while]> (threads s)),
          [Ev_wait_failed; Ev_empty])
  ∧ (m_stop (pool s) = true →
     exec [Interrupt i; Step i; Step i; Step i; Step i] s
     = Some (mk_system (pool s) (<[i := In_run R_exit]> (threads s)),
             [Ev_wait_failed; Ev_empty; Ev_exit i])).
Proof.
  intros Hi Hsem Hfree Hq.
  pose proof (lookup_lt_Some _ _ _ Hi) as Hlt.
  destruct s as [[tn th mr q l c st] ts].
  cbn [pool threads m_queuestat m_queuelocker m_workqueue m_stop] in *.
  subst c l q.
  assert (H1 : do_action (Interrupt i)
                 (mk_system (mk_threadpool tn th mr [] None 0 st) ts)
               = Some (mk_system (mk_threadpool tn th mr [] None 0 st)
                         (<[i := In_run R_lock]> ts), [Ev_wait_failed])).
  { cbn [do_action threads pool]. by rewrite Hi. }
  assert (H2 : do_action (Step i)
                 (mk_system (mk_threadpool tn th mr [] None 0 st)
                    (<[i := In_run R_lock]> ts))
               = Some (mk_system (mk_threadpool tn th mr [] (Some i) 0 st)
                         (<[i := In_run R_empty]> ts), [])).
  { erewrite do_step;
      [|by apply list_lookup_insert_eq|reflexivity].
    cbn [threads]. by rewrite list_insert_insert_eq. }
  assert (H3 : do_action (Step i)
                 (mk_system (mk_threadpool tn th mr [] (Some i) 0 st)
                    (<[i := In_run R_empty]> ts))
               = Some (mk_system (mk_threadpool tn th mr [] (Some i) 0 st)
                         (<[i := In_run R_unlock_empty]> ts), [Ev_empty])).
  { erewrite do_step;
      [|by apply list_lookup_insert_eq|reflexivity].
    cbn [threads]. by rewrite list_insert_insert_eq. }
  assert (H4 : do_action (Step i)
                 (mk_system (mk_threadpool tn th mr [] (Some i) 0 st)
                    (<[i := In_run R_unlock_empty]> ts))
               = Some (mk_system (mk_threadpool tn th mr [] None 0 st)
                         (<[i := In_run R_while]> ts), [])).
  { erewrite do_step;
      [|by apply list_lookup_insert_eq
       |cbn [pool];
        cbv [thread_step run_step bind queuelocker_unlock locker.unlock ret];
        cbn [m_queuelocker]; rewrite Nat.eqb_refl; reflexivity].
    cbn [threads]. by rewrite list_insert_insert_eq. }
  split.
  - rewrite (exec_cons _ _ _ _ _ H1), (exec_cons _ _ _ _ _ H2),
      (exec_cons _ _ _ _ _ H3), (exec_cons _ _ _ _ _ H4).
    reflexivity.
  - intros Hstop. cbn [m_stop] in Hstop. subst st.
    assert (H5 : do_action (Step i)
                   (mk_system (mk_threadpool tn th mr [] None 0 true)
                      (<[i := In_run R_while]> ts))
                 = Some (mk_system (mk_threadpool tn th mr [] None 0 true)
                           (<[i := In_run R_exit]> ts), [Ev_exit i])).
    { erewrite do_step;
        [|by apply list_lookup_insert_eq|reflexivity].
      cbn [threads]. by rewrite list_insert_insert_eq. }
    rewrite (exec_cons _ _ _ _ _ H1), (exec_cons _ _ _ _ _ H2),
      (exec_cons _ _ _ _ _ H3), (exec_cons _ _ _ _ _ H4),
      (exec_cons _ _ _ _ _ H5).
    reflexivity.
Qed.

(** C9, as the code has it.  Only the loop test reads [m_stop], and a
    worker leaves [run] only by executing that test with the flag set, so
    never between the return of [wait()] and the end of the pass.  A
    worker blocked in [wait()] on a zero semaphore, with no [append]
    under way and none started, stays blocked there through any number
    of moves of the other threads and of the destructor, as long as its
    [wait()] is not interrupted: it cannot move, it does not exit.  When
    its [wait()] is interrupted, it returns on failure, the worker goes
    on, and with the mutex free and the queue empty it is back at the
    loop test three statements later, where it leaves [run] if the flag
    is set. *)
Theorem stop_checked_only_at_loop_top s i sch s' evs :
  threads s !! i = Some (In_run R_wait) →
  m_queuestat (pool s) = 0 →
  Forall (λ t, in_append t = false) (threads s) →
  Forall (λ a, is_call a = false ∧ a ≠ Interrupt i) sch →
  exec sch s = Some (s', evs) →
  (threads s' !! i = Some (In_run R_wait)
   ∧ do_action (Step i) s' = None
   ∧ Ev_exit i ∉ evs)
  ∧ (∀ interrupted j pc p b, pc ≠ R_while →
       run_step interrupted j pc (with_stop b p)
       = match run_step interrupted j pc p with
         | Some (pc', p', e) => Some (pc', with_stop b p', e)
         | None => None
         end)
  ∧ (∀ a s1 s2 e j,
       do_action a s1 = Some (s2, e) →
       threads s2 !! j = Some (In_run R_exit) →
       threads s1 !! j = Some (In_run R_exit)
       ∨ (a = Step j ∧ threads s1 !! j = Some (In_run R_while)
          ∧ m_stop (pool s1) = true))
  ∧ (m_queuelocker (pool s') = None → m_workqueue (pool s') = [] →
     exec [Interrupt i; Step i; Step i; Step i] s'
     = Some (mk_system (pool s') (<[i := In_run R_while]> (threads s')),
             [Ev_wait_failed; Ev_empty])
     ∧ (m_stop (pool s') = true →
        exec [Interrupt i; Step i; Step i; Step i; Step i] s'
        = Some (mk_system (pool s') (<[i := In_run R_exit]> (threads s')),
                [Ev_wait_failed; Ev_empty; Ev_exit i]))).
Proof.
  intros Hi Hsem Hno Hsch Hexec.
  destruct (blocked_worker_exec _ _ _ _ _ Hi Hsem Hno Hsch Hexec)
    as (Hi' & Hsem' & Hev).
  split; [|split; [|split]].
  - eauto using wait_blocks.
  - apply run_step_ignores_stop.
  - apply exit_only_from_loop_test.
  - intros Hfree Hq. by apply interrupted_pass.
Qed.

(** C9, counterexample.  In [stopped_waiting] no request was ever
    submitted, the worker is blocked in [wait()] on a zero semaphore and
    an empty queue, and the destructor has run.  A signal interrupts the
    [wait()]: it returns [false], which [run] ignores; the worker locks,
    finds the queue empty, unlocks, comes back to the loop test, reads the
    flag and leaves [run]. *)
Lemma blocked_worker_leaves_after_interrupt :
  reachable 1 1 stopped_waiting []
  ∧ threads stopped_waiting !! 0%nat = Some (In_run R_wait)
  ∧ m_workqueue (pool stopped_waiting) = []
  ∧ m_queuestat (pool stopped_waiting) = 0
  ∧ do_action (Step 0%nat) stopped_waiting = None
  ∧ exec [Interrupt 0%nat; Step 0%nat; Step 0%nat; Step 0%nat; Step 0%nat]
      stopped_waiting
    = Some (mk_system (pool stopped_waiting) [In_run R_exit; Idle],
            [Ev_wait_failed; Ev_empty; Ev_exit 0%nat]).
Proof.
  split; [|repeat split].
  by_schedule 1%nat [Step 0%nat; Destroy].
Qed.

Lemma stop_checked_only_at_loop_top_witness :
  threads stopped_waiting !! 0%nat = Some (In_run R_wait)
  ∧ m_stop (pool stopped_waiting) = true
  ∧ do_action (Step 0%nat) stopped_waiting = None.
Proof.
  pose proof (stop_checked_only_at_loop_top
                (mk_system (mk_threadpool 1 [0%nat] 1 [] None 0 false)
                           [In_run R_wait; Idle])
                0%nat [Destroy] stopped_waiting []) as H.
  destruct H as [(H1 & H2 & _) _].
  - reflexivity.
  - reflexivity.
  - repeat constructor.
  - repeat constructor; discriminate.
  - reflexivity.
  - split; [exact H1|]. split; [reflexivity|exact H2].
Defined.

(** ** Progress *)

Lemma transition_stop i t p t' p' evs :
  transition i t p t' p' evs → m_stop p' = m_stop p.
Proof. by destruct 1. Qed.

(** Every statement executed brings the potential down. *)
Lemma transition_potential i t p t' p' evs ts :
  ts !! i = Some t → transition i t p t' p' evs →
  (potential (mk_system p' (<[i := t']> ts))
   + (if decide (failed_waits evs = O) then 1 else 0)
   <= potential (mk_system p ts)
      + (if decide (failed_waits evs = O) then 0 else 19))%nat.
Proof.
  intros Hi Hs.
  pose proof (tally_insert weight _ _ _ t' Hi) as Htally.
  unfold potential.
  destruct Hs; unfold failed_waits; simpl (omap _ _);
    cbn [length decide decide_rel];
    cbn [pool threads weight m_workqueue m_queuestat with_workqueue
         with_queuelocker with_queuestat] in *;
    repeat match goal with
      | H : m_workqueue _ = _ |- _ => rewrite H in *; clear H
      end;
    rewrite ?length_app; cbn [length] in *;
    repeat case_decide; try done; lia.
Qed.

Lemma step_potential s i s' evs :
  do_action (Step i) s = Some (s', evs) →
  (potential s' < potential s)%nat.
Proof.
  cbn [do_action].
  destruct (threads s !! i) as [t|] eqn:Hi; [|done].
  destruct (thread_step false i t (pool s)) as [[[t' p'] e]|] eqn:Hs; [|done].
  intros [= <- <-].
  assert (Hnf : failed_waits e = O).
  { destruct t as [|[] r|[]]; simpl in Hs; unfold bind in Hs;
      repeat case_match; simplify_eq; try done.
    all: cbv [queuelocker_lock queuelocker_unlock gets ret emit push_back
              modify bind queuestat_post front pop_front queuestat_wait
              sem.wait stuck] in *;
      repeat case_match; simplify_eq; done. }
  apply thread_step_transition in Hs.
  pose proof (transition_potential _ _ _ _ _ _ _ Hi Hs) as Hp.
  destruct s as [p ts]. cbn [pool threads] in *.
  rewrite Hnf in Hp. simpl in Hp. lia.
Qed.

(** An interrupted [wait()] raises it by 19 at most. *)
Lemma interrupt_potential s i s' evs :
  do_action (Interrupt i) s = Some (s', evs) →
  (potential s' <= potential s + 19)%nat.
Proof.
  cbn [do_action].
  destruct (threads s !! i) as [[| |[]]|] eqn:Hi; try done.
  destruct (0 <? m_queuestat (pool s)); [done|].
  destruct (thread_step true i (In_run R_wait) (pool s))
    as [[[t' p'] e]|] eqn:Hs; [|done].
  intros [= <- <-]. apply thread_step_transition in Hs.
  pose proof (transition_potential _ _ _ _ _ _ _ Hi Hs) as Hp.
  destruct s as [p ts]. cbn [pool threads] in *.
  repeat case_decide; lia.
Qed.

(** Without new calls, the statements executed are bounded by the
    potential and the number of interrupted [wait()]s. *)
Lemma steps_bounded sch : ∀ s s' evs,
  Forall (λ a, is_call a = false) sch →
  exec sch s = Some (s', evs) →
  (count_actions is_step sch + potential s'
   <= potential s + 19 * count_actions is_interrupt sch)%nat.
Proof.
  unfold count_actions.
  induction sch as [|a sch IH]; intros s s' evs Hsch; simpl.
  - intros [= <- <-]. lia.
  - destruct (do_action a s) as [[s1 e1]|] eqn:Ha; [|done].
    destruct (exec sch s1) as [[s2 e2]|] eqn:He; [|done].
    intros [= <- <-]. inversion Hsch as [|? ? Hcall Hsch']; subst.
    specialize (IH _ _ _ Hsch' He).
    destruct a as [|i|i|]; try done; simpl.
    + pose proof (step_potential _ _ _ _ Ha). lia.
    + pose proof (interrupt_potential _ _ _ _ Ha). lia.
    + simpl in Ha. injection Ha as <- <-. unfold potential in *.
      simpl in *. lia.
Qed.

(** A thread inside a critical section can always execute its next
    statement. *)
Lemma holder_can_step s i t :
  state_inv s → threads s !! i = Some t → holds_lock t = true →
  m_queuelocker (pool s) = Some i →
  is_Some (do_action (Step i) s).
Proof.
  intros Hst Hi Hheld Hown. simpl. rewrite Hi.
  pose proof (inv_local _ Hst _ _ Hi) as Hli.
  destruct t as [|[] r|[]]; try done; simpl in *;
    cbv [bind gets ret queuelocker_unlock locker.unlock push_back modify emit
         front pop_front];
    rewrite ?Hown, ?Nat.eqb_refl; simpl; eauto.
  - destruct (m_workqueue (pool s)); simpl; eauto.
  - destruct (m_workqueue (pool s)); [done|]. simpl. eauto.
  - destruct (m_workqueue (pool s)); [done|]. simpl. eauto.
Qed.

(** With the mutex free, a thread that is in the middle of a call or of an
    iteration can execute its next statement. *)
Lemma busy_can_step s i t :
  threads s !! i = Some t → holds_lock t = false → at_rest t = false →
  m_queuelocker (pool s) = None →
  is_Some (do_action (Step i) s).
Proof.
  intros Hi Hheld Hbusy Hfree. simpl. rewrite Hi.
  destruct t as [|[] r|[]]; try done; simpl in *;
    cbv [bind gets ret queuelocker_lock locker.lock queuestat_post modify emit];
    rewrite ?Hfree; simpl; eauto.
  destruct (is_null request); simpl; eauto.
Qed.

(** Unless the destructor has run, some thread can move as long as the
    system is not drained. *)
Lemma not_drained_can_step s :
  lock_inv s → state_inv s → m_stop (pool s) = false → ¬ drained s →
  ∃ i, is_Some (do_action (Step i) s).
Proof.
  intros [Hlock Hown] Hst Hstop Hnd.
  destruct (m_queuelocker (pool s)) as [j|] eqn:Hl.
  - destruct (Hown j eq_refl) as [t Hj]. exists j.
    eapply holder_can_step; eauto. by apply (Hlock _ _ Hj).
  - destruct (decide (Forall (λ t, at_rest t = true) (threads s))) as [Hq|Hnq].
    + destruct (inv_worker _ Hst) as (w & pc & Hw). exists w.
      pose proof (Forall_lookup_1 _ _ _ _ Hq Hw) as Hrest.
      pose proof (inv_local _ Hst _ _ Hw) as Hlw.
      pose proof (inv_sem _ Hst) as Hsem.
      rewrite (quiescent_tally s owed Hq at_rest_owed) in Hsem.
      simpl. rewrite Hw.
      destruct pc; try done; simpl in *.
      * cbv [bind gets ret]. rewrite Hstop. simpl. eauto.
      * cbv [bind queuestat_wait sem.wait].
        destruct (Z.ltb_spec 0 (m_queuestat (pool s))); simpl; eauto.
        exfalso. apply Hnd. split; [done|].
        destruct (m_workqueue (pool s)); [done|]. simpl in Hsem. lia.
      * congruence.
    + apply not_Forall_Exists in Hnq; [|apply _].
      apply Exists_exists in Hnq as (t & Ht & Hbusy).
      apply list_elem_of_lookup in Ht as [i Hi]. exists i.
      eapply busy_can_step; eauto.
      * destruct (holds_lock t) eqn:Hh; [|done].
        apply (Hlock _ _ Hi) in Hh. congruence.
      * simpl in Hbusy. by destruct (at_rest t).
Qed.

Lemma quiescent_dec s : Decision (quiescent s).
Proof. unfold quiescent. apply _. Defined.

Lemma drained_dec s : Decision (drained s).
Proof. unfold drained. pose proof (quiescent_dec s). apply _. Defined.

(** The threads left to themselves drain the queue: by strong induction on
    a bound of the potential. *)
Lemma drains n : ∀ s tr,
  (potential s <= n)%nat → invariant s tr → m_stop (pool s) = false →
  ∃ sch s' evs,
    Forall (λ a, is_step a = true) sch
    ∧ exec sch s = Some (s', evs) ∧ drained s'.
Proof.
  induction n as [|n IH]; intros s tr Hn Hinv Hstop.
  all: destruct (drained_dec s) as [Hd|Hnd];
    [exists [], s, []; split; [constructor|split; [reflexivity|exact Hd]]|].
  all: destruct Hinv as (Hlock & Hst & Hh).
  all: destruct (not_drained_can_step s Hlock Hst Hstop Hnd)
         as (i & [[s1 e1] Ha]).
  all: pose proof (step_potential _ _ _ _ Ha) as Hlt.
  1: lia.
  assert (Hinv1 : invariant s1 (tr ++ e1)).
  { eapply invariant_step; [exact (conj Hlock (conj Hst Hh))|].
    by eapply do_action_sys_step. }
  assert (Hstop1 : m_stop (pool s1) = false).
  { simpl in Ha. destruct (threads s !! i) as [t|]; [|done].
    destruct (thread_step false i t (pool s)) as [[[t' p'] e]|] eqn:Hs;
      [|done].
    injection Ha as <- <-. apply thread_step_transition in Hs.
    simpl. by rewrite (transition_stop _ _ _ _ _ _ Hs). }
  destruct (IH s1 _ ltac:(lia) Hinv1 Hstop1) as (sch & s' & evs & Hsch & He & Hd).
  exists (Step i :: sch), s', (e1 ++ evs). split; [by constructor|].
  split; [|done]. cbn [exec]. by rewrite Ha, He.
Qed.

(** ** Exactly-once execution *)

Lemma occ_absent h (l : list Z) : Forall (λ x, x ≠ h) l → occ h l = O.
Proof.
  induction 1 as [|x l Hx _ IH]; [done|].
  rewrite occ_cons, IH. by destruct (Z.eq_dec x h).
Qed.

Lemma occ_only h x (l : list Z) : Forall (λ y, y = x) l → h ≠ x → occ h l = O.
Proof.
  intros Hall Hne. apply occ_absent.
  eapply Forall_impl; [exact Hall|]. simpl. congruence.
Qed.

(** Where the accepted submissions of a handle are at any instant. *)
Lemma accounting s tr h :
  invariant s tr → h ≠ NULL →
  (occ h (accepted tr) + tally (accepting h) (threads s)
   = occ h (processed tr) + tally (holding h) (threads s)
     + occ h (m_workqueue (pool s)))%nat.
Proof.
  intros (_ & _ & [Hfifo Hpops Hpushes _ Hskip _]) Hh.
  rewrite <- Hpushes, Hfifo, occ_app, Hpops.
  rewrite (occ_only h NULL _ Hskip Hh). lia.
Qed.

Lemma accounting_drained s tr h :
  invariant s tr → h ≠ NULL → drained s →
  occ h (processed tr) = occ h (accepted tr).
Proof.
  intros Hinv Hh [Hq Hempty].
  pose proof (accounting s tr h Hinv Hh) as Hacc.
  rewrite (quiescent_tally s (accepting h) Hq (at_rest_accepting h)) in Hacc.
  rewrite (quiescent_tally s (holding h) Hq (at_rest_holding h)) in Hacc.
  rewrite Hempty, occ_nil in Hacc. lia.
Qed.

(** A request that [append] has accepted while the destructor runs is
    left in the queue: the worker leaves [run] at its loop test, no
    thread can move any more, and nothing that may still happen processes
    the request. *)
Lemma accepted_task_stranded_by_destructor :
  let s := mk_system (mk_threadpool 1 [0%nat] 1 [5] None 1 true)
                     [In_run R_exit; Idle] in
  let tr := [Ev_push 5; Ev_return 5 true; Ev_exit 0%nat] in
  reachable 1 1 s tr
  ∧ occ 5 (accepted tr) = 1%nat
  ∧ occ 5 (processed tr) = O
  ∧ (∀ a, is_call a = false → do_action a s = None ∨ a = Destroy)
  ∧ ∀ sch s' evs,
      Forall (λ a, is_call a = false) sch → exec sch s = Some (s', evs) →
      occ 5 (processed (tr ++ evs)) = O.
Proof.
  intros s tr.
  assert (Hstay : ∀ a s1 e1, is_call a = false →
                    do_action a s = Some (s1, e1) → s1 = s ∧ e1 = []).
  { intros [j r|[|[|j]]|[|[|j]]|] s1 e1; try done; by intros _ [= <- <-]. }
  split; [|split; [|split; [|split]]].
  - by_schedule 1%nat
      [Call 1%nat 5; Step 1%nat; Step 1%nat; Step 1%nat; Step 1%nat;
       Step 1%nat; Step 1%nat; Destroy; Step 0%nat].
  - reflexivity.
  - reflexivity.
  - intros [j r|[|[|j]]|[|[|j]]|]; try done; auto.
  - intros sch. induction sch as [|a sch IH]; intros s' evs Hsch.
    + by intros [= <- <-].
    + inversion Hsch as [|? ? Hcall Hsch']; subst. cbn [exec].
      destruct (do_action a s) as [[s1 e1]|] eqn:Ha; [|done].
      destruct (Hstay _ _ _ Hcall Ha) as [-> ->].
      destruct (exec sch s) as [[s2 e2]|] eqn:He; [|done].
      intros [= <- <-]. by apply (IH s2).
Qed.

(** C1, as the code has it.  For a non-null handle [h], in every
    reachable state each submission of [h] that [append] accepted (or is
    about to report as accepted) is in exactly one place: processed, held
    by the worker that popped it, or still queued.  Hence once the system
    is drained [h] has been processed exactly as many times as it was
    accepted.  And it does get drained, every call of [process()] being
    a step that returns: without new calls the statements the threads
    execute are at most [potential s] and 19 more for each [wait()] that
    is interrupted, and while the stop flag is down some thread can move
    as long as the system is not drained.  A null handle is never
    processed. *)
Theorem accepted_tasks_run_exactly_once thread_number max_requests s tr h :
  reachable thread_number max_requests s tr →
  h ≠ NULL →
  (occ h (accepted tr) + tally (accepting h) (threads s)
   = occ h (processed tr) + tally (holding h) (threads s)
     + occ h (m_workqueue (pool s)))%nat
  ∧ (drained s → occ h (processed tr) = occ h (accepted tr))
  ∧ occ NULL (processed tr) = O
  ∧ (∀ sch s' evs,
       Forall (λ a, is_call a = false) sch → exec sch s = Some (s', evs) →
       (count_actions is_step sch
        <= potential s + 19 * count_actions is_interrupt sch)%nat)
  ∧ (m_stop (pool s) = false →
     (¬ drained s → ∃ i, is_Some (do_action (Step i) s))
     ∧ ∃ sch s' evs,
         Forall (λ a, is_step a = true) sch
         ∧ exec sch s = Some (s', evs)
         ∧ drained s'
         ∧ occ h (processed (tr ++ evs)) = occ h (accepted (tr ++ evs))).
Proof.
  intros Hr Hh. pose proof (reachable_invariant _ _ _ _ Hr) as Hinv.
  split; [by apply accounting|].
  split; [by apply accounting_drained|].
  split.
  { apply occ_absent. apply (inv_processed s tr), Hinv. }
  split.
  { intros sch s' evs Hsch He.
    pose proof (steps_bounded _ _ _ _ Hsch He). lia. }
  intros Hstop. split.
  { intros Hnd. destruct Hinv as (Hlock & Hst & _).
    by apply not_drained_can_step. }
  destruct (drains (potential s) s tr (le_n _) Hinv Hstop)
    as (sch & s' & evs & Hsch & He & Hd).
  exists sch, s', evs. repeat split; try done; try apply Hd.
  apply (accounting_drained s'); [|done|done].
  eapply invariant_exec; eauto.
Qed.

(** C1, counterexample.  [append(NULL)] has returned [true]; the worker
    has popped the handle and skipped it, and the system is drained.  The
    handle has not been processed, and is not going to be, whatever
    happens next. *)
Lemma null_accepted_never_processed :
  reachable 1 1 null_served
    [Ev_push NULL; Ev_return NULL true; Ev_pop NULL; Ev_skip NULL]
  ∧ drained null_served
  ∧ occ NULL (accepted [Ev_push NULL; Ev_return NULL true; Ev_pop NULL;
                        Ev_skip NULL]) = 1%nat
  ∧ ∀ sch s' evs,
      exec sch null_served = Some (s', evs) →
      occ NULL (processed ([Ev_push NULL; Ev_return NULL true; Ev_pop NULL;
                            Ev_skip NULL] ++ evs)) = O.
Proof.
  assert (Hr : reachable 1 1 null_served
                 [Ev_push NULL; Ev_return NULL true; Ev_pop NULL; Ev_skip NULL]).
  { by_schedule 1%nat
      [Call 1%nat NULL; Step 1%nat; Step 1%nat; Step 1%nat; Step 1%nat;
       Step 1%nat; Step 1%nat;
       Step 0%nat; Step 0%nat; Step 0%nat; Step 0%nat; Step 0%nat;
       Step 0%nat; Step 0%nat; Step 0%nat; Step 0%nat]. }
  split; [exact Hr|]. split; [|split].
  - split; [repeat constructor|reflexivity].
  - reflexivity.
  - intros sch s' evs He.
    pose proof (reachable_exec _ _ _ _ _ _ _ Hr He) as Hr'.
    apply reachable_invariant in Hr' as (_ & _ & Hh).
    apply occ_absent. apply (inv_processed _ _ Hh).
Qed.

Lemma accepted_tasks_run_exactly_once_witness :
  ∃ s tr, reachable 1 1 s tr ∧ accepted tr = [5] ∧ processed tr = [5]
          ∧ occ 5 (processed tr) = occ 5 (accepted tr).
Proof.
  assert (Hr : reachable 1 1
                 (mk_system (mk_threadpool 1 [0%nat] 1 [] None 0 false)
                            [In_run R_while; Idle])
                 [Ev_push 5; Ev_return 5 true; Ev_pop 5; Ev_process 5]).
  { by_schedule 1%nat
      [Call 1%nat 5; Step 1%nat; Step 1%nat; Step 1%nat; Step 1%nat;
       Step 1%nat; Step 1%nat;
       Step 0%nat; Step 0%nat; Step 0%nat; Step 0%nat; Step 0%nat;
       Step 0%nat; Step 0%nat; Step 0%nat; Step 0%nat]. }
  eexists _, _. split; [exact Hr|].
  split; [reflexivity|]. split; [reflexivity|].
  destruct (accepted_tasks_run_exactly_once 1 1 _ _ 5 Hr) as (_ & Hd & _).
  - unfold NULL. lia.
  - apply Hd. split; [repeat constructor|reflexivity].
Defined.

(** * Further properties *)

(** ** The constructor's thread loop *)

(** The loop runs through the threads the operating system grants. *)
Lemma spawn_skip sys m : ∀ n i,
  (∀ j, (i <= j < i + m)%nat → create_ok sys j = true ∧ detach_ok sys j = true) →
  spawn sys (m + n) i = spawn sys n (i + m).
Proof.
  induction m as [|m IH]; intros n i Hok; simpl.
  - f_equal. lia.
  - destruct (Hok i ltac:(lia)) as [-> ->].
    rewrite IH; [f_equal; lia|]. intros j Hj. apply Hok. lia.
Qed.

Lemma spawn_complete sys n i :
  spawn sys n i = (true, (i + n)%nat)
  ↔ ∀ j, (i <= j < i + n)%nat → create_ok sys j = true ∧ detach_ok sys j = true.
Proof.
  revert i. induction n as [|n IH]; intros i; simpl.
  - split; [intros _ j Hj; lia|]. intros _. f_equal. lia.
  - destruct (create_ok sys i) eqn:Hc.
    + destruct (detach_ok sys i) eqn:Hd.
      * replace (i + S n)%nat with (S i + n)%nat by lia. rewrite IH. split.
        -- intros H j Hj. destruct (decide (j = i)) as [->|]; [done|].
           apply H. lia.
        -- intros H j Hj. apply H. lia.
      * split; [intros [= _ Hk]; lia|].
        intros H. destruct (H i ltac:(lia)). congruence.
    + split; [intros [= _ Hk]; lia|].
      intros H. destruct (H i ltac:(lia)). congruence.
Qed.

(** X1. When [pthread_create] fails for the thread of index [k], the
    constructor throws and the [k] threads started before are left
    behind; when [pthread_detach] fails for it, [k + 1] threads are. *)
Theorem ctor_failure_leaves_threads sys thread_number max_requests k :
  mutex_init_ok sys = true → sem_init_ok sys = true →
  0 < max_requests →
  (k < Z.to_nat thread_number)%nat →
  (∀ j, (j < k)%nat → create_ok sys j = true ∧ detach_ok sys j = true) →
  (create_ok sys k = false →
   threadpool_ctor sys thread_number max_requests = mk_ctor_run Thrown k)
  ∧ (create_ok sys k = true → detach_ok sys k = false →
     threadpool_ctor sys thread_number max_requests = mk_ctor_run Thrown (S k)).
Proof.
  intros Hm Hs Hmr Hk Hok.
  assert (Hctor : threadpool_ctor sys thread_number max_requests
                  = match spawn sys (Z.to_nat thread_number - k) k with
                    | (true, n) =>
                        mk_ctor_run
                          (Constructed (mk_threadpool thread_number (seq 0 n)
                                          max_requests [] None 0 false)) n
                    | (false, n) => mk_ctor_run Thrown n
                    end).
  { unfold threadpool_ctor, bad_arguments. rewrite Hm, Hs. simpl.
    destruct (Z.leb_spec thread_number 0); [lia|].
    destruct (Z.leb_spec max_requests 0); [lia|]. simpl.
    replace (Z.to_nat thread_number)
      with (k + (Z.to_nat thread_number - k))%nat at 1 by lia.
    rewrite spawn_skip; [done|]. intros j Hj. apply Hok. lia. }
  rewrite Hctor.
  destruct (Z.to_nat thread_number - k)%nat as [|n] eqn:Hn; [lia|]. simpl.
  split.
  - by intros ->.
  - by intros -> ->.
Qed.

Lemma ctor_failure_leaves_threads_witness :
  threadpool_ctor (refuses_thread 3) 8 10000 = mk_ctor_run Thrown 3.
Proof.
  apply (ctor_failure_leaves_threads (refuses_thread 3) 8 10000 3).
  - reflexivity.
  - reflexivity.
  - lia.
  - simpl. lia.
  - intros j Hj. simpl. split; [|reflexivity].
    destruct (Nat.eqb_spec j 3); [lia|reflexivity].
  - reflexivity.
Defined.

(** X2. The constructor returns an object exactly when both arguments are
    positive and the operating system grants the mutex, the semaphore and
    each of the [thread_number] threads; the object then has an empty
    queue, a free mutex, a zero semaphore and the stop flag down, and
    [thread_number] threads have been started. *)
Theorem ctor_constructed_iff sys thread_number max_requests :
  ((∃ p, outcome (threadpool_ctor sys thread_number max_requests) = Constructed p)
   ↔ (0 < thread_number ∧ 0 < max_requests
      ∧ mutex_init_ok sys = true ∧ sem_init_ok sys = true
      ∧ ∀ j, (j < Z.to_nat thread_number)%nat →
             create_ok sys j = true ∧ detach_ok sys j = true))
  ∧ (∀ p, outcome (threadpool_ctor sys thread_number max_requests)
          = Constructed p →
          p = mk_threadpool thread_number (seq 0 (Z.to_nat thread_number))
                max_requests [] None 0 false
          ∧ created (threadpool_ctor sys thread_number max_requests)
            = Z.to_nat thread_number).
Proof.
  split.
  2: { intros p Hp. split; [by apply ctor_constructed in Hp as (_ & _ & ->)|].
       revert Hp. unfold threadpool_ctor.
       destruct (locker.ctor _); [|done]. destruct (sem.ctor _); [|done].
       destruct (bad_arguments _ _); [done|].
       destruct (spawn _ _ _) as [[] n] eqn:Hs; [|done].
       intros _. simpl. by apply spawn_all_ok in Hs. }
  unfold threadpool_ctor, bad_arguments, locker.ctor, sem.ctor.
  destruct (mutex_init_ok sys);
    [|split; [intros [p [=]]|intros (_ & _ & [=] & _)]].
  destruct (sem_init_ok sys);
    [|split; [intros [p [=]]|intros (_ & _ & _ & [=] & _)]].
  destruct (Z.leb_spec thread_number 0);
    [split; [intros [p [=]]|intros (? & _); lia]|].
  destruct (Z.leb_spec max_requests 0);
    [split; [intros [p [=]]|intros (_ & ? & _); lia]|].
  simpl.
  pose proof (spawn_complete sys (Z.to_nat thread_number) 0) as Hsp.
  destruct (spawn sys (Z.to_nat thread_number) 0) as [[] n] eqn:Hs; simpl.
  - pose proof (spawn_all_ok _ _ _ _ Hs) as ->. split; [|eauto].
    intros _. repeat split; try done; apply Hsp; try done; lia.
  - split; [intros [p [=]]|].
    intros (_ & _ & _ & _ & Hok). exfalso.
    assert (Hall : (false, n) = (true, (0 + Z.to_nat thread_number)%nat)).
    { apply Hsp. intros j Hj. apply Hok. lia. }
    congruence.
Qed.

Lemma ctor_constructed_iff_witness :
  ∃ p, outcome (threadpool_ctor generous 8 10000) = Constructed p.
Proof.
  apply (proj1 (ctor_constructed_iff generous 8 10000)).
  repeat split; lia.
Defined.

(** ** The mutex and the queue it guards *)

(** X3. Mutual exclusion: in a reachable state two threads that are both
    between [lock()] and [unlock()] are the same thread, and it is the
    owner of the mutex. *)
Theorem mutual_exclusion thread_number max_requests s tr i j ti tj :
  reachable thread_number max_requests s tr →
  threads s !! i = Some ti → threads s !! j = Some tj →
  holds_lock ti = true → holds_lock tj = true →
  i = j ∧ m_queuelocker (pool s) = Some i.
Proof.
  intros Hr Hi Hj Hti Htj.
  apply reachable_invariant in Hr as ([Hlock _] & _ & _).
  apply (Hlock _ _ Hi) in Hti. apply (Hlock _ _ Hj) in Htj.
  split; [congruence|done].
Qed.

Lemma mutual_exclusion_witness :
  ∃ s tr, reachable 1 2 s tr
          ∧ threads s !! 2%nat = Some (In_append A_push 6)
          ∧ m_queuelocker (pool s) = Some 2%nat.
Proof.
  assert (Hr : reachable 1 2
                 (mk_system (mk_threadpool 1 [0%nat] 2 [] (Some 2%nat) 0 false)
                    [In_run R_wait; In_append A_lock 5; In_append A_push 6])
                 []).
  { by_schedule 2%nat
      [Step 0%nat; Call 1%nat 5; Call 2%nat 6; Step 2%nat; Step 2%nat]. }
  eexists _, _. split; [exact Hr|]. split; [reflexivity|].
  exact (proj2 (mutual_exclusion 1 2 _ _ 2%nat 2%nat _ _ Hr
                  eq_refl eq_refl eq_refl eq_refl)).
Defined.

(** A worker about to leave the critical section by the branch for an
    empty queue has been through the empty test. *)
Lemma unlock_empty_counted thread_number max_requests s tr i :
  reachable thread_number max_requests s tr →
  threads s !! i = Some (In_run R_unlock_empty) →
  (0 < empty_passes tr)%nat.
Proof.
  intros Hr. revert i.
  apply (reachable_invariant_with
           (λ s tr, ∀ i, threads s !! i = Some (In_run R_unlock_empty) →
                         (0 < empty_passes tr)%nat)
           thread_number max_requests); [| |exact Hr].
  - intros callers i Hi. by apply lookup_boot in Hi as [?|?].
  - intros s0 tr0 evs s' _ HJ Hstep i. rewrite empty_passes_app.
    destruct Hstep as [s0 j r Hj|s0 j t t' p' evs Hj Htr|s0]; simpl.
    + intros Hi.
      apply list_lookup_insert_Some in Hi as [(_ & [=] & _)|(_ & Hi)].
      specialize (HJ _ Hi). lia.
    + intros Hi.
      apply list_lookup_insert_Some in Hi as [(-> & -> & _)|(_ & Hi)].
      * inversion Htr; subst. unfold empty_passes. simpl. lia.
      * specialize (HJ _ Hi). lia.
    + intros Hi. specialize (HJ _ Hi). lia.
Qed.

(** X4. [front()] and [pop_front()] are never reached with an empty queue:
    the empty test under the mutex guards them, and the request read with
    [front()] is still the head when it is popped.  The queue is found
    empty (l.202-208) only after a [wait()] has failed, and at most as
    many times as [wait()] has failed. *)
Theorem front_never_on_empty thread_number max_requests s tr i pc :
  reachable thread_number max_requests s tr →
  threads s !! i = Some (In_run pc) →
  match pc with
  | R_front => m_workqueue (pool s) ≠ []
  | R_pop request => head (m_workqueue (pool s)) = Some request
  | R_empty => m_workqueue (pool s) = [] → (0 < failed_waits tr)%nat
  | R_unlock_empty => (0 < failed_waits tr)%nat
  | _ => True
  end
  ∧ (empty_passes tr <= failed_waits tr)%nat.
Proof.
  intros Hr Hi. pose proof (reachable_invariant _ _ _ _ Hr) as (_ & Hst & Hh).
  pose proof (inv_local _ Hst _ _ Hi) as Hli.
  pose proof (inv_sem _ Hst) as Hsem. pose proof (inv_sem_pos _ Hst) as Hpos.
  pose proof (inv_account _ _ Hh) as Hacc.
  assert (HEF : (empty_passes tr <= failed_waits tr)%nat) by lia.
  split; [|done].
  destruct pc; try done.
  - pose proof (tally_lookup_le owed _ _ _ Hi) as Hle.
    simpl in Hle. intros Hq. rewrite Hq in Hacc. simpl in Hacc. lia.
  - pose proof (unlock_empty_counted _ _ _ _ _ Hr Hi). lia.
Qed.

Lemma front_never_on_empty_witness :
  ∃ s tr, reachable 1 2 s tr
          ∧ threads s !! 0%nat = Some (In_run R_front)
          ∧ m_workqueue (pool s) ≠ [].
Proof.
  assert (Hr : reachable 1 2
                 (mk_system (mk_threadpool 1 [0%nat] 2 [5] (Some 0%nat) 0 false)
                    [In_run R_front; Idle])
                 [Ev_push 5; Ev_return 5 true]).
  { by_schedule 1%nat
      [Call 1%nat 5; Step 1%nat; Step 1%nat; Step 1%nat; Step 1%nat;
       Step 1%nat; Step 1%nat; Step 0%nat; Step 0%nat; Step 0%nat;
       Step 0%nat]. }
  eexists _, _. split; [exact Hr|]. split; [reflexivity|].
  exact (proj1 (front_never_on_empty 1 2 _ _ 0%nat R_front Hr eq_refl)).
Defined.

(** X5. The semaphore count is never negative and never exceeds
    [max_requests] by more than the number of [wait()] calls that have
    failed; it is strictly below that bound whenever a caller is about
    to [post()].  So as long as no [wait()] has failed the count stays
    within [max_requests], hence within [int]. *)
Theorem semaphore_bounded thread_number max_requests s tr :
  reachable thread_number max_requests s tr →
  0 <= m_queuestat (pool s) <= max_requests + Z.of_nat (failed_waits tr)
  ∧ max_requests <= INT_MAX
  ∧ (∀ i request, threads s !! i = Some (In_append A_post request) →
                  m_queuestat (pool s)
                  < max_requests + Z.of_nat (failed_waits tr))
  ∧ (failed_waits tr = O →
     0 <= m_queuestat (pool s) <= max_requests
     ∧ ∀ i request, threads s !! i = Some (In_append A_post request) →
                    m_queuestat (pool s) < max_requests).
Proof.
  intros Hr. pose proof (reachable_max_requests _ _ _ _ Hr) as Hmr.
  apply reachable_invariant in Hr as (_ & [Hmax _ Hbound Hsem Hpos _] & Hh).
  pose proof (inv_account _ _ Hh) as Hacc.
  rewrite Hmr in *.
  assert (Hpost : ∀ i request,
            threads s !! i = Some (In_append A_post request) →
            m_queuestat (pool s) < max_requests + Z.of_nat (failed_waits tr)).
  { intros i request Hi.
    pose proof (tally_lookup_le owed _ _ _ Hi) as Hle. simpl in Hle. lia. }
  split; [lia|]. split; [lia|]. split; [done|].
  intros HF. split; [lia|].
  intros i request Hi. specialize (Hpost _ _ Hi). lia.
Qed.

Lemma semaphore_bounded_witness :
  ∃ s tr, reachable 1 1 s tr ∧ m_queuestat (pool s) = 2
          ∧ failed_waits tr = 1%nat
          ∧ 0 <= m_queuestat (pool s) <= 1 + Z.of_nat (failed_waits tr).
Proof.
  assert (Hr : reachable 1 1
                 (mk_system (mk_threadpool 1 [0%nat] 1 [8] None 2 false)
                    [In_run R_while; In_append (A_return true) 8])
                 [Ev_push 7; Ev_wait_failed; Ev_pop 7; Ev_process 7;
                  Ev_return 7 true; Ev_push 8]).
  { by_schedule 1%nat
      [Step 0%nat; Call 1%nat 7; Step 1%nat; Step 1%nat; Step 1%nat;
       Step 1%nat; Interrupt 0%nat; Step 0%nat; Step 0%nat; Step 0%nat;
       Step 0%nat; Step 0%nat; Step 0%nat; Step 0%nat; Step 1%nat;
       Step 1%nat; Call 1%nat 8; Step 1%nat; Step 1%nat; Step 1%nat;
       Step 1%nat; Step 1%nat]. }
  eexists _, _. split; [exact Hr|]. split; [reflexivity|].
  split; [reflexivity|].
  exact (proj1 (semaphore_bounded 1 1 _ _ Hr)).
Defined.

(** X13. A request is enqueued once for each call of [append] that
    returns [true]: in a reachable history every handle has been pushed
    as many times as [append] has returned [true] for it, plus one for
    each caller that has pushed it and not returned yet.  A call that
    returns [false] pushes nothing. *)
Theorem pushes_match_accepts thread_number max_requests s tr h :
  reachable thread_number max_requests s tr →
  occ h (pushes tr)
  = (occ h (accepted tr) + tally (accepting h) (threads s))%nat
  ∧ (quiescent s → occ h (pushes tr) = occ h (accepted tr)).
Proof.
  intros Hr. apply reachable_invariant in Hr as (_ & _ & Hh).
  pose proof (inv_pushes _ _ Hh h) as Hp. split; [done|].
  intros Hq.
  rewrite (quiescent_tally s (accepting h) Hq (at_rest_accepting h)) in Hp.
  lia.
Qed.

Lemma pushes_match_accepts_witness :
  ∃ s tr, reachable 2 1 s tr ∧ rejected tr = [6]
          ∧ occ 6 (pushes tr) = O ∧ occ 5 (pushes tr) = 1%nat.
Proof.
  assert (Hr : reachable 2 1
                 (mk_system (mk_threadpool 2 [0; 1]%nat 1 [5] None 1 false)
                    [In_run R_while; In_run R_while; Idle; Idle])
                 [Ev_push 5; Ev_return 6 false; Ev_return 5 true]).
  { by_schedule 2%nat
      [Call 3%nat 5; Call 2%nat 6; Step 3%nat; Step 3%nat; Step 3%nat;
       Step 3%nat; Step 2%nat; Step 2%nat; Step 2%nat; Step 2%nat;
       Step 3%nat; Step 3%nat]. }
  eexists _, _. split; [exact Hr|]. split; [reflexivity|].
  assert (Hq : quiescent
                 (mk_system (mk_threadpool 2 [0; 1]%nat 1 [5] None 1 false)
                    [In_run R_while; In_run R_while; Idle; Idle]))
    by repeat constructor.
  split.
  - rewrite (proj2 (pushes_match_accepts 2 1 _ _ 6 Hr) Hq). reflexivity.
  - rewrite (proj2 (pushes_match_accepts 2 1 _ _ 5 Hr) Hq). reflexivity.
Defined.

(** ** Critical sections are short *)

Lemma do_action_step s i t t' p' evs :
  threads s !! i = Some t → transition i t (pool s) t' p' evs →
  t ≠ In_run R_wait →
  do_action (Step i) s = Some (mk_system p' (<[i := t']> (threads s)), evs).
Proof.
  intros Hi Htr Hne. cbn [do_action]. rewrite Hi.
  rewrite (transition_thread_step false _ _ _ _ _ _ Htr); [done|auto].
Qed.

(** The holder of the mutex can execute its next statement, and with it
    either releases the mutex or gets closer to doing so. *)
Lemma holder_progress s tr i t :
  invariant s tr → threads s !! i = Some t → holds_lock t = true →
  ∃ s1 e1 t1,
    do_action (Step i) s = Some (s1, e1)
    ∧ threads s1 !! i = Some t1
    ∧ ((holds_lock t1 = false ∧ m_queuelocker (pool s1) = None)
       ∨ (holds_lock t1 = true ∧ (cs_left t1 < cs_left t)%nat)).
Proof.
  intros ([Hlock _] & Hst & _) Hi Hheld.
  pose proof (proj1 (Hlock _ _ Hi) Hheld) as Hown.
  pose proof (inv_local _ Hst _ _ Hi) as Hli.
  pose proof (lookup_lt_Some _ _ _ Hi) as Hlt.
  assert (Hgo : ∀ t' p' evs,
             transition i t (pool s) t' p' evs →
             (holds_lock t' = false ∧ m_queuelocker p' = None)
             ∨ (holds_lock t' = true ∧ (cs_left t' < cs_left t)%nat) →
             ∃ s1 e1 t1,
               do_action (Step i) s = Some (s1, e1)
               ∧ threads s1 !! i = Some t1
               ∧ ((holds_lock t1 = false ∧ m_queuelocker (pool s1) = None)
                  ∨ (holds_lock t1 = true ∧ (cs_left t1 < cs_left t)%nat))).
  { intros t' p' evs Htr Hend. eexists _, _, t'.
    split; [eapply do_action_step; [done..|by intros ->]|].
    split; [|exact Hend]. by apply list_lookup_insert_eq. }
  destruct t as [|[] r|[]]; try done; simpl in Hli.
  - destruct (queue_full (pool s)) eqn:Hfull.
    + eapply Hgo; [by apply T_a_check_full|]. right. simpl. split; [done|lia].
    + eapply Hgo; [by apply T_a_check_room|]. right. simpl. split; [done|lia].
  - eapply Hgo; [by apply T_a_unlock_full|]. by left.
  - eapply Hgo; [apply T_a_push|]. right. simpl. split; [done|lia].
  - eapply Hgo; [by apply T_a_unlock|]. by left.
  - destruct (m_workqueue (pool s)) as [|h q] eqn:Hq.
    + eapply Hgo; [by apply T_r_empty_yes|].
      right. simpl. split; [done|lia].
    + eapply Hgo; [apply T_r_empty_no; by rewrite Hq|].
      right. simpl. split; [done|lia].
  - eapply Hgo; [by apply T_r_unlock_empty|]. by left.
  - destruct (m_workqueue (pool s)) as [|h q] eqn:Hq; [done|].
    eapply Hgo; [by eapply T_r_front|]. right. simpl. split; [done|lia].
  - destruct (m_workqueue (pool s)) as [|h q] eqn:Hq; [done|].
    eapply Hgo; [by eapply T_r_pop|]. right. simpl. split; [done|lia].
  - eapply Hgo; [by apply T_r_unlock|]. by left.
Qed.

Lemma mutex_released n : ∀ s tr i t,
  invariant s tr → threads s !! i = Some t → holds_lock t = true →
  (cs_left t <= n)%nat →
  ∃ k s' evs,
    (1 <= k <= n)%nat
    ∧ exec (replicate k (Step i)) s = Some (s', evs)
    ∧ m_queuelocker (pool s') = None.
Proof.
  induction n as [|n IH]; intros s tr i t Hinv Hi Hheld Hn.
  - destruct t as [|[] ?|[]]; simpl in *; try done; lia.
  - destruct (holder_progress s tr i t Hinv Hi Hheld)
      as (s1 & e1 & t1 & Ha & Hi1 & [[_ Hfree]|[Hheld1 Hless]]).
    + exists 1%nat, s1, (e1 ++ []). split; [lia|]. split; [|done].
      cbn [replicate exec]. by rewrite Ha.
    + assert (Hinv1 : invariant s1 (tr ++ e1))
        by eauto using invariant_step, do_action_sys_step.
      destruct (IH s1 _ i t1 Hinv1 Hi1 Hheld1 ltac:(lia))
        as (k & s' & evs & Hk & He & Hfree).
      exists (S k), s', (e1 ++ evs). split; [lia|]. split; [|done].
      cbn [replicate exec]. by rewrite Ha, He.
Qed.

(** X15. A thread inside a critical section never blocks there: in a
    reachable state, letting the holder of the mutex run for at most four
    statements frees the mutex. *)
Theorem critical_section_bounded thread_number max_requests s tr i t :
  reachable thread_number max_requests s tr →
  threads s !! i = Some t → holds_lock t = true →
  ∃ k s' evs,
    (1 <= k <= 4)%nat
    ∧ exec (replicate k (Step i)) s = Some (s', evs)
    ∧ m_queuelocker (pool s') = None.
Proof.
  intros Hr Hi Hheld. apply reachable_invariant in Hr.
  eapply mutex_released; eauto.
  destruct t as [|[] ?|[]]; simpl; lia.
Qed.

Lemma critical_section_bounded_witness :
  ∃ k s' evs,
    (1 <= k <= 4)%nat
    ∧ exec (replicate k (Step 0%nat))
        (mk_system (mk_threadpool 1 [0%nat] 2 [5] (Some 0%nat) 0 false)
                   [In_run R_empty; Idle])
      = Some (s', evs)
    ∧ m_queuelocker (pool s') = None.
Proof.
  assert (Hr : reachable 1 2
                 (mk_system (mk_threadpool 1 [0%nat] 2 [5] (Some 0%nat) 0 false)
                    [In_run R_empty; Idle])
                 [Ev_push 5; Ev_return 5 true]).
  { by_schedule 1%nat
      [Call 1%nat 5; Step 1%nat; Step 1%nat; Step 1%nat; Step 1%nat;
       Step 1%nat; Step 1%nat; Step 0%nat; Step 0%nat; Step 0%nat]. }
  exact (critical_section_bounded 1 2 _ _ 0%nat _ Hr eq_refl eq_refl).
Defined.

(** ** [append] and [run] run by one thread alone *)

(** X6. [append] fails to return exactly when the mutex is held at the
    call; and a call that returns [false] found the queue full and has
    changed nothing: same queue, same semaphore count, mutex free again,
    no event. *)
Theorem append_rejection_changes_nothing i request p :
  (append i request p = None ↔ m_queuelocker p ≠ None)
  ∧ (∀ p' evs, append i request p = Some (false, p', evs) →
               p' = p ∧ evs = [] ∧ queue_full p = true).
Proof.
  destruct (m_queuelocker p) as [j|] eqn:Hl.
  - assert (Hnone : append i request p = None).
    { cbv [append bind queuelocker_lock locker.lock]. by rewrite Hl. }
    rewrite Hnone. split; [done|]. intros p' evs [=].
  - destruct (queue_full p) eqn:Hfull.
    + rewrite append_full by done. split; [done|].
      by intros p' evs [= <- <-].
    + rewrite append_room by done. split; [done|]. by intros p' evs [=].
Qed.

Lemma append_rejection_changes_nothing_witness :
  append 3%nat 9 (mk_threadpool 2 [0; 1]%nat 1 [5] (Some 0%nat) 0 false) = None.
Proof.
  apply (proj1 (append_rejection_changes_nothing 3%nat 9
                  (mk_threadpool 2 [0; 1]%nat 1 [5] (Some 0%nat) 0 false))).
  simpl. discriminate.
Defined.

Lemma run_S signals i fuel p :
  m_stop p = false →
  run signals (S fuel) i p
  = match run_body (signals fuel) i p with
    | Some (_, p1, e1) =>
        match run signals fuel i p1 with
        | Some (b, p2, e2) => Some (b, p2, e1 ++ e2)
        | None => None
        end
    | None => None
    end.
Proof.
  intros Hstop. cbn [run]. unfold bind at 1. unfold gets at 1.
  rewrite Hstop. unfold bind at 1.
  destruct (run_body (signals fuel) i p) as [[[[] p1] e1]|]; [|done].
  by destruct (run signals fuel i p1) as [[[b p2] e2]|].
Qed.

Lemma run_stopped signals i fuel p :
  m_stop p = true → run signals (S fuel) i p = Some (true, p, [Ev_exit i]).
Proof.
  intros Hstop. cbn [run]. unfold bind at 1. unfold gets at 1.
  by rewrite Hstop.
Qed.

Lemma run_blocked signals i fuel p :
  m_stop p = false → m_queuestat p <= 0 → signals fuel = false →
  run signals (S fuel) i p = None.
Proof.
  intros Hstop Hsem Hsig. rewrite run_S by done.
  by rewrite Hsig, run_body_blocks.
Qed.

(** A worker whose [wait()] fails on an empty queue is back at the loop
    test with the pool as it was. *)
Lemma run_interrupted signals i fuel p :
  m_stop p = false → m_queuestat p <= 0 → m_queuelocker p = None →
  m_workqueue p = [] → signals fuel = true →
  run signals (S fuel) i p
  = match run signals fuel i p with
    | Some (b, p2, e2) => Some (b, p2, [Ev_wait_failed; Ev_empty] ++ e2)
    | None => None
    end.
Proof.
  intros Hstop Hsem Hfree Hq Hsig. rewrite run_S by done.
  by rewrite Hsig, run_body_failed_empty.
Qed.

Lemma run_serves signals q : ∀ m i p,
  m_workqueue p = q → m_stop p = false → m_queuelocker p = None →
  Z.of_nat (length q) <= m_queuestat p →
  run signals (length q + m) i p
  = match
      run signals m i
        (mk_threadpool (m_thread_number p) (m_threads p) (m_max_requests p)
           [] None (m_queuestat p - Z.of_nat (length q)) false)
    with
    | Some (b, p2, e2) => Some (b, p2, serve q ++ e2)
    | None => None
    end.
Proof.
  induction q as [|request q IH]; intros m i p Hq Hstop Hfree Hsem.
  - destruct p as [tn th mr q0 l c st]. simpl in *. subst.
    replace (c - Z.of_nat 0) with c by lia.
    by destruct (run signals m i _) as [[[b p2] e2]|].
  - cbn [length Nat.add] in *.
    rewrite run_S by done.
    rewrite (run_body_pop _ i p request q Hq ltac:(lia) Hfree).
    set (p1 := mk_threadpool (m_thread_number p) (m_threads p)
                 (m_max_requests p) q None (m_queuestat p - 1) (m_stop p)).
    rewrite (IH m i p1 eq_refl Hstop eq_refl);
      [|subst p1; cbn [m_queuestat]; lia].
    subst p1. cbn [m_thread_number m_threads m_max_requests m_queuestat].
    replace (m_queuestat p - 1 - Z.of_nat (length q))
      with (m_queuestat p - Z.of_nat (S (length q))) by lia.
    destruct (run signals m i _) as [[[b p2] e2]|]; [|done].
    cbn [serve flat_map app]. by destruct (is_null request).
Qed.

(** X7. A worker left alone with a queue of [n] requests and at least [n]
    units in the semaphore serves the queue from head to tail, each
    request popped and then skipped if null and processed otherwise,
    and leaves the queue empty.  With exactly [n] units its next
    [wait()] finds the count at zero: it blocks there if no signal
    arrives; if one does, [wait()] fails, the worker finds the queue
    empty under the mutex, changes nothing and goes on with the loop. *)
Theorem run_serves_queue signals i p :
  m_stop p = false → m_queuelocker p = None →
  Z.of_nat (length (m_workqueue p)) <= m_queuestat p →
  run signals (length (m_workqueue p)) i p
  = Some (false,
          mk_threadpool (m_thread_number p) (m_threads p) (m_max_requests p)
            [] None (m_queuestat p - Z.of_nat (length (m_workqueue p))) false,
          serve (m_workqueue p))
  ∧ (m_queuestat p = Z.of_nat (length (m_workqueue p)) →
     ∀ n,
       (signals n = false →
        run signals (S (length (m_workqueue p) + n)) i p = None)
       ∧ (signals n = true →
          run signals (S (length (m_workqueue p) + n)) i p
          = match
              run signals n i
                (mk_threadpool (m_thread_number p) (m_threads p)
                   (m_max_requests p) [] None 0 false)
            with
            | Some (b, p2, e2) =>
                Some (b, p2,
                      serve (m_workqueue p) ++ [Ev_wait_failed; Ev_empty] ++ e2)
            | None => None
            end)).
Proof.
  intros Hstop Hfree Hsem. split.
  - pose proof (run_serves signals _ 0%nat i p eq_refl Hstop Hfree Hsem) as H.
    rewrite Nat.add_0_r in H. rewrite H.
    cbn [run]. cbv [ret]. by rewrite app_nil_r.
  - intros Hc n.
    replace (S (length (m_workqueue p) + n))
      with (length (m_workqueue p) + S n)%nat by lia.
    rewrite (run_serves signals _ (S n) i p eq_refl Hstop Hfree Hsem).
    rewrite Hc, Z.sub_diag. split; intros Hsig.
    + by rewrite run_blocked.
    + rewrite run_interrupted by done.
      by destruct (run signals n i _) as [[[b p2] e2]|].
Qed.

Lemma run_serves_queue_witness :
  run (λ _, false) 3 0%nat
    (mk_threadpool 1 [0%nat] 4 [7; NULL; 9] None 3 false)
  = Some (false, mk_threadpool 1 [0%nat] 4 [] None 0 false,
          [Ev_pop 7; Ev_process 7; Ev_pop NULL; Ev_skip NULL;
           Ev_pop 9; Ev_process 9]).
Proof.
  apply (proj1 (run_serves_queue (λ _, false) 0%nat
                  (mk_threadpool 1 [0%nat] 4 [7; NULL; 9] None 3 false)
                  eq_refl eq_refl ltac:(simpl; lia))).
Defined.

Lemma run_body_stop interrupted i p u p1 e :
  run_body interrupted i p = Some (u, p1, e) → m_stop p1 = m_stop p.
Proof.
  destruct p as [tn th mr q l c st].
  cbv [run_body bind queuestat_wait sem.wait queuelocker_lock locker.lock
       gets front pop_front queuelocker_unlock locker.unlock emit].
  cbn [m_queuestat m_queuelocker m_workqueue m_stop with_queuestat
       with_queuelocker with_workqueue].
  destruct (0 <? c); [|destruct interrupted; [|done]].
  all: destruct l; [done|].
  all: destruct q as [|request q];
    cbn [m_queuestat m_queuelocker m_workqueue m_stop with_queuestat
         with_queuelocker with_workqueue];
    rewrite Nat.eqb_refl; [by intros [= <- <- <-]|].
  all: by destruct (is_null request); intros [= <- <- <-].
Qed.

Lemma run_leaves signals n : ∀ i p p' evs,
  run signals n i p = Some (true, p', evs) →
  m_stop p = true ∧ p' = p ∧ evs = [Ev_exit i].
Proof.
  induction n as [|n IH]; intros i p p' evs; [done|].
  destruct (m_stop p) eqn:Hstop.
  - rewrite run_stopped by done. by intros [= <- <-].
  - rewrite run_S by done.
    destruct (run_body (signals n) i p) as [[[u p1] e1]|] eqn:Hbody; [|done].
    destruct (run signals n i p1) as [[[b p2] e2]|] eqn:Hrun; [|done].
    intros [= -> <- <-]. apply IH in Hrun as (Hstop1 & _).
    rewrite (run_body_stop _ _ _ _ _ _ Hbody) in Hstop1. congruence.
Qed.

(** X8. No statement of [run] touches [m_stop].  A worker that finds the
    flag up at the loop test returns at once and leaves queue and
    semaphore alone; a worker running alone never returns unless the
    flag was already up at its first test.  (Whatever signals arrive.) *)
Theorem run_leaves_only_when_stopped signals fuel i p :
  (m_stop p = true → run signals (S fuel) i p = Some (true, p, [Ev_exit i]))
  ∧ (∀ interrupted u p1 e,
       run_body interrupted i p = Some (u, p1, e) → m_stop p1 = m_stop p)
  ∧ (∀ p' evs, run signals fuel i p = Some (true, p', evs) →
               m_stop p = true ∧ p' = p ∧ evs = [Ev_exit i]).
Proof.
  split; [apply run_stopped|].
  split; [intros b; apply run_body_stop|apply run_leaves].
Qed.

Lemma run_leaves_only_when_stopped_witness :
  run (λ _, false) 5 0%nat (mk_threadpool 1 [0%nat] 4 [7; 9] None 2 true)
  = Some (true, mk_threadpool 1 [0%nat] 4 [7; 9] None 2 true, [Ev_exit 0%nat]).
Proof.
  apply (proj1 (run_leaves_only_when_stopped (λ _, false) 4 0%nat
                  (mk_threadpool 1 [0%nat] 4 [7; 9] None 2 true))).
  reflexivity.
Defined.

(** X9. Round trip: on a pool at rest with an empty queue, [append] by one
    thread followed by one pass of the loop body by another brings the
    pool back to the state it was in; the request has been pushed, popped
    and processed (skipped if null). *)
Theorem append_then_run_body interrupted i j request p :
  int_range (m_max_requests p) → 0 < m_max_requests p →
  m_queuelocker p = None → m_workqueue p = [] → m_queuestat p = 0 →
  (append i request ;; run_body interrupted j) p
  = Some (tt, p,
          [Ev_push request; Ev_pop request;
           if is_null request then Ev_skip request else Ev_process request]).
Proof.
  intros Hint Hpos Hfree Hq Hsem. unfold bind.
  rewrite append_room; [|done|apply queue_full_false; [done|rewrite Hq; simpl; lia]].
  rewrite (run_body_pop _ j _ request []);
    [|by cbn; rewrite Hq|cbn; lia|done].
  destruct p as [tn th mr q l c st]. simpl in *. subst.
  by destruct (is_null request).
Qed.

Lemma append_then_run_body_witness :
  (append 1%nat 7 ;; run_body false 0%nat)
    (mk_threadpool 1 [0%nat] 1 [] None 0 false)
  = Some (tt, mk_threadpool 1 [0%nat] 1 [] None 0 false,
          [Ev_push 7; Ev_pop 7; Ev_process 7]).
Proof.
  apply (append_then_run_body false 1%nat 0%nat 7
           (mk_threadpool 1 [0%nat] 1 [] None 0 false)).
  - unfold int_range, INT_MIN, INT_MAX. simpl. lia.
  - simpl. lia.
  - reflexivity.
  - reflexivity.
  - reflexivity.
Defined.

(** ** Capacity *)

Lemma append_all_fills requests : ∀ i p,
  int_range (m_max_requests p) → m_queuelocker p = None →
  Z.of_nat (length (m_workqueue p)) + Z.of_nat (length requests)
    <= m_max_requests p →
  append_all i requests p
  = Some (replicate (length requests) true,
          mk_threadpool (m_thread_number p) (m_threads p) (m_max_requests p)
            (m_workqueue p ++ requests) None
            (m_queuestat p + Z.of_nat (length requests)) (m_stop p),
          map Ev_push requests).
Proof.
  induction requests as [|request rest IH]; intros i p Hint Hfree Hroom.
  - destruct p as [tn th mr q l c st]. simpl in *. subst.
    cbv [ret]. rewrite app_nil_r. do 3 f_equal. f_equal. lia.
  - cbn [length] in Hroom. cbn [append_all]. unfold bind at 1.
    rewrite append_room; [|done|apply queue_full_false; [done|lia]].
    unfold bind at 1. rewrite IH; cbn [m_max_requests m_queuelocker
                                       m_workqueue]; [|done|done|].
    + cbv [ret].
      cbn [m_thread_number m_threads m_max_requests m_workqueue m_queuestat
           m_stop length replicate map app].
      rewrite <- app_assoc, app_nil_r. do 3 f_equal. f_equal. lia.
    + rewrite length_app. cbn [length]. lia.
Qed.

(** X10. A thread that calls [append] for each request of a list that
    still fits gets [true] every time, and leaves the requests at the
    tail of the queue in the order of the calls, with one semaphore unit
    each; if the queue has then reached [max_requests], the next
    [append], by any thread, returns [false]. *)
Theorem append_all_until_full i requests p :
  int_range (m_max_requests p) → m_queuelocker p = None →
  Z.of_nat (length (m_workqueue p)) + Z.of_nat (length requests)
    <= m_max_requests p →
  let p' := mk_threadpool (m_thread_number p) (m_threads p)
              (m_max_requests p) (m_workqueue p ++ requests) None
              (m_queuestat p + Z.of_nat (length requests)) (m_stop p) in
  append_all i requests p
  = Some (replicate (length requests) true, p', map Ev_push requests)
  ∧ (Z.of_nat (length (m_workqueue p)) + Z.of_nat (length requests)
     = m_max_requests p →
     ∀ j request, append j request p' = Some (false, p', [])).
Proof.
  intros Hint Hfree Hroom p'. split; [by apply append_all_fills|].
  intros Hfull j request. apply append_full; [done|].
  unfold queue_full, size_t_of_int. subst p'.
  cbn [m_workqueue m_max_requests]. rewrite length_app.
  destruct Hint as [_ Hhi]. unfold INT_MAX in Hhi.
  rewrite Z.mod_small; [apply Z.leb_le; lia|]. unfold SIZE_MODULUS. lia.
Qed.

Lemma append_all_until_full_witness :
  append_all 1%nat [5; NULL; 6] (mk_threadpool 1 [0%nat] 3 [] None 0 false)
  = Some ([true; true; true],
          mk_threadpool 1 [0%nat] 3 [5; NULL; 6] None 3 false,
          [Ev_push 5; Ev_push NULL; Ev_push 6]).
Proof.
  apply (proj1 (append_all_until_full 1%nat [5; NULL; 6]
                  (mk_threadpool 1 [0%nat] 3 [] None 0 false)
                  ltac:(unfold int_range, INT_MIN, INT_MAX; simpl; lia)
                  eq_refl ltac:(simpl; lia))).
Defined.

(** X14. What the constructor's argument check protects [append] from.
    The comparison at l.136 is made in [size_t]: on an object whose
    [m_max_requests] were 0 every [append] would be refused, and on one
    whose [m_max_requests] were negative none would be, whatever the
    length of the queue (below 2^63). *)
Theorem capacity_check_needs_positive_max i request p :
  int_range (m_max_requests p) → m_queuelocker p = None →
  Z.of_nat (length (m_workqueue p)) < 9223372036854775808 →
  (m_max_requests p = 0 → append i request p = Some (false, p, []))
  ∧ (m_max_requests p < 0 →
     append i request p
     = Some (true,
             mk_threadpool (m_thread_number p) (m_threads p)
               (m_max_requests p) (m_workqueue p ++ [request]) None
               (m_queuestat p + 1) (m_stop p),
             [Ev_push request])).
Proof.
  intros [Hlo Hhi] Hfree Hlen. unfold INT_MIN, INT_MAX in *. split.
  - intros Hzero. apply append_full; [done|].
    unfold queue_full, size_t_of_int. rewrite Hzero.
    apply Z.leb_le. rewrite Z.mod_0_l by (unfold SIZE_MODULUS; lia). lia.
  - intros Hneg. apply append_room; [done|].
    unfold queue_full, size_t_of_int.
    rewrite <- (Z_mod_plus_full (m_max_requests p) 1 SIZE_MODULUS).
    rewrite Z.mod_small by (unfold SIZE_MODULUS; lia).
    apply Z.leb_gt. unfold SIZE_MODULUS. lia.
Qed.

Lemma capacity_check_needs_positive_max_witness :
  append 1%nat 7 (mk_threadpool 1 [0%nat] (-1) [5; 6] None 2 false)
  = Some (true, mk_threadpool 1 [0%nat] (-1) [5; 6; 7] None 3 false,
          [Ev_push 7]).
Proof.
  apply (proj2 (capacity_check_needs_positive_max 1%nat 7
                  (mk_threadpool 1 [0%nat] (-1) [5; 6] None 2 false)
                  ltac:(unfold int_range, INT_MIN, INT_MAX; simpl; lia)
                  eq_refl ltac:(simpl; lia))).
  simpl. lia.
Defined.

(** ** Workers, from construction to shutdown *)

Lemma transition_role i t p t' p' evs :
  transition i t p t' p' evs → is_worker t' = is_worker t.
Proof. by destruct 1. Qed.

(** The number of workers never changes. *)
Lemma worker_count thread_number max_requests s tr :
  reachable thread_number max_requests s tr →
  tally is_worker (threads s) = Z.to_nat thread_number.
Proof.
  apply (reachable_invariant_with
           (λ s _, tally is_worker (threads s) = Z.to_nat thread_number)).
  - intros callers. unfold boot. cbn [threads m_threads].
    rewrite tally_app, !tally_replicate, length_seq. simpl. lia.
  - intros s0 tr0 evs s' _ HJ Hstep.
    destruct Hstep as [s0 i r Hi|s0 i t t' p' evs Hi Htr|s0]; simpl; [| |done].
    + pose proof (tally_insert is_worker _ _ _ (In_append A_lock r) Hi).
      simpl in *. lia.
    + pose proof (tally_insert is_worker _ _ _ t' Hi).
      rewrite (transition_role _ _ _ _ _ _ Htr) in *. lia.
Qed.

Lemma handled_app t1 t2 : handled (t1 ++ t2) = handled t1 ++ handled t2.
Proof. apply omap_app. Qed.

Lemma exits_app t1 t2 : exits (t1 ++ t2) = exits t1 ++ exits t2.
Proof. apply omap_app. Qed.

Lemma stopped_step s evs s' :
  sys_step s evs s' → m_stop (pool s) = true →
  m_stop (pool s') = true
  ∧ (length (handled evs) + tally in_iteration (threads s')
     <= tally in_iteration (threads s))%nat.
Proof.
  intros Hstep Hstop.
  destruct Hstep as [s i r Hi|s i t t' p' evs Hi Htr|s]; simpl.
  - split; [done|].
    pose proof (tally_insert in_iteration _ _ _ (In_append A_lock r) Hi).
    simpl in *. lia.
  - split; [by rewrite (transition_stop _ _ _ _ _ _ Htr)|].
    pose proof (tally_insert in_iteration _ _ _ t' Hi) as Htally.
    destruct Htr; simpl in *; try lia. congruence.
  - split; [done|lia].
Qed.

Lemma stopped_exec sch : ∀ s s' evs,
  exec sch s = Some (s', evs) → m_stop (pool s) = true →
  m_stop (pool s') = true
  ∧ (length (handled evs) + tally in_iteration (threads s')
     <= tally in_iteration (threads s))%nat.
Proof.
  induction sch as [|a sch IH]; intros s s' evs; simpl.
  - intros [= <- <-] Hstop. split; [done|]. simpl. lia.
  - destruct (do_action a s) as [[s1 e1]|] eqn:Ha; [|done].
    destruct (exec sch s1) as [[s2 e2]|] eqn:He; [|done].
    intros [= <- <-] Hstop. apply do_action_sys_step in Ha.
    destruct (stopped_step _ _ _ Ha Hstop) as [Hstop1 H1].
    destruct (IH _ _ _ He Hstop1) as [Hstop2 H2].
    split; [done|]. rewrite handled_app, length_app. lia.
Qed.

Lemma tally_le f g (l : list thread) :
  (∀ t, (f t <= g t)%nat) → (tally f l <= tally g l)%nat.
Proof.
  intros Hfg. induction l as [|t l IH]; simpl; [lia|].
  specialize (Hfg t). lia.
Qed.

Lemma processed_handled tr : (length (processed tr) <= length (handled tr))%nat.
Proof.
  induction tr as [|e tr IH]; simpl; [lia|].
  destruct e; simpl; lia.
Qed.

(** X11. Once the destructor has raised the stop flag it stays up, and
    each worker takes care of at most one more request: over any
    continuation, new calls of [append] included, the requests processed
    or skipped number at most the workers that had passed the loop test,
    hence at most [thread_number] - whatever is still queued. *)
Theorem after_destructor thread_number max_requests s tr sch s' evs :
  reachable thread_number max_requests s tr →
  m_stop (pool s) = true →
  exec sch s = Some (s', evs) →
  m_stop (pool s') = true
  ∧ (length (processed evs) <= length (handled evs))%nat
  ∧ (length (handled evs) <= tally in_iteration (threads s))%nat
  ∧ Z.of_nat (length (handled evs)) <= thread_number.
Proof.
  intros Hr Hstop He.
  destruct (stopped_exec _ _ _ _ He Hstop) as [Hstop' Hle].
  pose proof (worker_count _ _ _ _ Hr) as Hcount.
  assert (Htn : 0 < thread_number).
  { destruct Hr as (sys & p & callers & sch0 & _ & _ & Hctor & _).
    by apply ctor_constructed in Hctor as (? & _). }
  assert (Hw : (tally in_iteration (threads s) <= tally is_worker (threads s))%nat).
  { apply tally_le. intros [|[] ?|[]]; simpl; lia. }
  split; [done|]. split; [apply processed_handled|]. split; lia.
Qed.

Lemma after_destructor_witness :
  ∃ s' evs,
    exec [Call 1%nat 5; Step 1%nat; Step 1%nat; Step 1%nat; Step 1%nat;
          Step 1%nat; Step 1%nat; Step 0%nat]
      (mk_system (mk_threadpool 1 [0%nat] 1 [] None 0 true)
                 [In_run R_while; Idle])
    = Some (s', evs)
    ∧ m_workqueue (pool s') = [5]
    ∧ threads s' !! 0%nat = Some (In_run R_exit)
    ∧ (length (handled evs) <= 0)%nat.
Proof.
  assert (Hr : reachable 1 1
                 (mk_system (mk_threadpool 1 [0%nat] 1 [] None 0 true)
                            [In_run R_while; Idle]) []).
  { by_schedule 1%nat [Destroy]. }
  exists (mk_system (mk_threadpool 1 [0%nat] 1 [5] None 1 true)
                    [In_run R_exit; Idle]),
         [Ev_push 5; Ev_return 5 true; Ev_exit 0%nat].
  split; [reflexivity|]. split; [reflexivity|]. split; [reflexivity|].
  exact (proj1 (proj2 (proj2
           (after_destructor 1 1 _ _
              [Call 1%nat 5; Step 1%nat; Step 1%nat; Step 1%nat; Step 1%nat;
               Step 1%nat; Step 1%nat; Step 0%nat]
              _ _ Hr eq_refl eq_refl)))).
Defined.

Lemma unstopped_step s evs s' :
  sys_step s evs s' → m_stop (pool s') = false →
  m_stop (pool s) = false ∧ exits evs = [].
Proof.
  intros Hstep Hstop.
  destruct Hstep as [s i r Hi|s i t t' p' evs Hi Htr|s]; simpl in *;
    [done| |done].
  rewrite (transition_stop _ _ _ _ _ _ Htr) in Hstop.
  split; [done|]. destruct Htr; try done. congruence.
Qed.

Lemma unstopped_exec sch : ∀ s s' evs,
  exec sch s = Some (s', evs) → m_stop (pool s') = false →
  m_stop (pool s) = false ∧ exits evs = [].
Proof.
  induction sch as [|a sch IH]; intros s s' evs; simpl.
  - by intros [= <- <-] Hstop.
  - destruct (do_action a s) as [[s1 e1]|] eqn:Ha; [|done].
    destruct (exec sch s1) as [[s2 e2]|] eqn:He; [|done].
    intros [= <- <-] Hstop. apply do_action_sys_step in Ha.
    destruct (IH _ _ _ He Hstop) as [Hstop1 H2].
    destruct (unstopped_step _ _ _ Ha Hstop1) as [Hstop0 H1].
    split; [done|]. by rewrite exits_app, H1, H2.
Qed.

(** X12. As long as the destructor has not run, no worker has left [run]:
    no exit has happened, no thread stands after the loop, and all
    [thread_number] workers are in it. *)
Theorem workers_stay_until_stopped thread_number max_requests s tr :
  reachable thread_number max_requests s tr →
  m_stop (pool s) = false →
  exits tr = []
  ∧ (∀ i, threads s !! i ≠ Some (In_run R_exit))
  ∧ tally is_worker (threads s) = Z.to_nat thread_number.
Proof.
  intros Hr Hstop. split; [|split].
  - destruct Hr as (sys & p & callers & sch & _ & _ & _ & Hexec).
    by destruct (unstopped_exec _ _ _ _ Hexec Hstop).
  - intros i Hi. apply reachable_invariant in Hr as (_ & Hst & _).
    pose proof (inv_local _ Hst _ _ Hi) as Hli. simpl in Hli. congruence.
  - by eapply worker_count.
Qed.

Lemma workers_stay_until_stopped_witness :
  ∃ s tr, reachable 2 1 s tr ∧ m_workqueue (pool s) = [5] ∧ exits tr = [].
Proof.
  assert (Hr : reachable 2 1
                 (mk_system (mk_threadpool 2 [0; 1]%nat 1 [5] None 1 false)
                    [In_run R_wait; In_run R_while; Idle])
                 [Ev_push 5; Ev_return 5 true]).
  { by_schedule 1%nat
      [Step 0%nat; Call 2%nat 5; Step 2%nat; Step 2%nat; Step 2%nat;
       Step 2%nat; Step 2%nat; Step 2%nat]. }
  eexists _, _. split; [exact Hr|]. split; [reflexivity|].
  exact (proj1 (workers_stay_until_stopped 2 1 _ _ Hr eq_refl)).
Defined.

(** ** Order of service with a single worker *)

Lemma hands_no_worker (l : list thread) :
  tally is_worker l = O → flat_map in_hand l = [].
Proof.
  induction l as [|t l IH]; simpl; [done|].
  intros H. rewrite IH by lia. by destruct t as [|? ?|[]].
Qed.

Lemma split_at (l : list thread) i t t' :
  l !! i = Some t →
  l = take i l ++ t :: drop (S i) l
  ∧ <[i := t']> l = take i l ++ t' :: drop (S i) l.
Proof.
  intros Hi. split.
  - by rewrite take_drop_middle.
  - apply insert_take_drop. by eapply lookup_lt_Some.
Qed.

Lemma hands_insert_same (l : list thread) i t t' :
  l !! i = Some t → in_hand t' = in_hand t →
  flat_map in_hand (<[i := t']> l) = flat_map in_hand l.
Proof.
  intros Hi Heq. destruct (split_at l i t t' Hi) as [Hl Hins].
  rewrite Hins. rewrite Hl at 3.
  rewrite !flat_map_app. simpl. by rewrite Heq.
Qed.

Lemma hands_single (l : list thread) i t t' :
  l !! i = Some t → is_worker t = 1%nat → (tally is_worker l <= 1)%nat →
  flat_map in_hand l = in_hand t
  ∧ flat_map in_hand (<[i := t']> l) = in_hand t'.
Proof.
  intros Hi Hw Hone. destruct (split_at l i t t' Hi) as [Hl Hins].
  assert (Hparts : tally is_worker (take i l) = O
                   ∧ tally is_worker (drop (S i) l) = O).
  { rewrite Hl in Hone. rewrite tally_app in Hone. simpl in Hone. lia. }
  destruct Hparts as [Ht Hd].
  rewrite Hins. rewrite Hl at 1.
  rewrite !flat_map_app. simpl.
  rewrite (hands_no_worker _ Ht), (hands_no_worker _ Hd).
  by rewrite !app_nil_r.
Qed.

Lemma hands_replicate n t :
  in_hand t = [] → flat_map in_hand (replicate n t) = [].
Proof. intros Ht. induction n as [|n IH]; simpl; [done|]. by rewrite Ht, IH. Qed.

(** With at most one worker, what has been popped is what has been
    skipped or processed, in that order, followed by the request in
    hand. *)
Lemma single_worker_step s tr evs s' :
  invariant s tr → sys_step s evs s' →
  (tally is_worker (threads s) <= 1)%nat
  ∧ handled tr ++ flat_map in_hand (threads s) = pops tr →
  (tally is_worker (threads s') <= 1)%nat
  ∧ handled (tr ++ evs) ++ flat_map in_hand (threads s') = pops (tr ++ evs).
Proof.
  intros (_ & Hst & _) Hstep [Hone Hpops].
  destruct Hstep as [s i r Hi|s i t t' p' evs Hi Htr|s]; simpl.
  - rewrite app_nil_r. split.
    + pose proof (tally_insert is_worker _ _ _ (In_append A_lock r) Hi).
      simpl in *. lia.
    + by rewrite (hands_insert_same _ _ Idle).
  - split.
    { pose proof (tally_insert is_worker _ _ _ t' Hi).
      rewrite (transition_role _ _ _ _ _ _ Htr) in *. lia. }
    rewrite handled_app, pops_app.
    pose proof (inv_local _ Hst _ _ Hi) as Hli.
    destruct Htr;
      try (rewrite (hands_insert_same _ _ _ _ Hi) by done;
           simpl; by rewrite !app_nil_r).
    + destruct (hands_single _ _ _ (In_run (R_unlock r)) Hi eq_refl Hone)
        as [Hold Hnew].
      rewrite Hnew, <- Hpops, Hold. simpl in Hli. rewrite H in Hli.
      injection Hli as ->. simpl. by rewrite !app_nil_r.
    + destruct (hands_single _ _ _ (In_run R_while) Hi eq_refl Hone)
        as [Hold Hnew].
      rewrite Hnew, <- Hpops, Hold. simpl. by rewrite !app_nil_r.
    + destruct (hands_single _ _ _ (In_run R_while) Hi eq_refl Hone)
        as [Hold Hnew].
      rewrite Hnew, <- Hpops, Hold. simpl. by rewrite !app_nil_r.
  - by rewrite app_nil_r.
Qed.

Lemma processed_of_handled tr :
  Forall (λ h, h ≠ NULL) (processed tr) → Forall (λ h, h = NULL) (skipped tr) →
  processed tr = filter (λ h, h ≠ NULL) (handled tr).
Proof.
  induction tr as [|e tr IH]; [done|].
  destruct e; simpl; try done.
  - intros Hp Hs. apply Forall_cons in Hp as [Hh Hp].
    rewrite filter_cons_True by done. f_equal. by apply IH.
  - intros Hp Hs. apply Forall_cons in Hs as [Hh Hs].
    rewrite filter_cons_False by (intros Hne; by apply Hne). by apply IH.
Qed.

(** X16. A pool built with one worker serves requests in the order they
    were enqueued: the requests pushed so far are those already skipped
    or processed, in that order, then the one the worker has in hand,
    then the queue; and the requests processed are the non-null ones
    among those served. *)
Theorem single_worker_serves_in_order max_requests s tr :
  reachable 1 max_requests s tr →
  pushes tr
  = handled tr ++ flat_map in_hand (threads s) ++ m_workqueue (pool s)
  ∧ processed tr = filter (λ h, h ≠ NULL) (handled tr).
Proof.
  intros Hr. pose proof (reachable_invariant _ _ _ _ Hr) as (_ & _ & Hh).
  split; [|apply processed_of_handled; apply Hh].
  assert (HJ : (tally is_worker (threads s) <= 1)%nat
               ∧ handled tr ++ flat_map in_hand (threads s) = pops tr).
  { revert Hr.
    apply (reachable_invariant_with
             (λ s tr, (tally is_worker (threads s) <= 1)%nat
                      ∧ handled tr ++ flat_map in_hand (threads s) = pops tr)).
    - intros callers. unfold boot. cbn [threads m_threads]. split.
      + rewrite tally_app, !tally_replicate. simpl. lia.
      + rewrite flat_map_app, !hands_replicate by done. done.
    - intros s0 tr0 evs s' Hinv HJ Hstep. by eapply single_worker_step. }
  destruct HJ as [_ HJ]. by rewrite (inv_fifo _ _ Hh), <- HJ, app_assoc.
Qed.

Lemma single_worker_serves_in_order_witness :
  ∃ s tr, reachable 1 3 s tr
          ∧ pushes tr = [5; NULL; 6] ∧ handled tr = [5; NULL]
          ∧ processed tr = [5] ∧ m_workqueue (pool s) = [6]
          ∧ pushes tr
            = handled tr ++ flat_map in_hand (threads s)
              ++ m_workqueue (pool s).
Proof.
  assert (Hr : reachable 1 3
                 (mk_system (mk_threadpool 1 [0%nat] 3 [6] None 1 false)
                    [In_run R_while; Idle])
                 [Ev_push 5; Ev_return 5 true; Ev_push NULL;
                  Ev_return NULL true; Ev_push 6; Ev_return 6 true;
                  Ev_pop 5; Ev_process 5; Ev_pop NULL; Ev_skip NULL]).
  { by_schedule 1%nat
      [Call 1%nat 5; Step 1%nat; Step 1%nat; Step 1%nat; Step 1%nat;
       Step 1%nat; Step 1%nat;
       Call 1%nat NULL; Step 1%nat; Step 1%nat; Step 1%nat; Step 1%nat;
       Step 1%nat; Step 1%nat;
       Call 1%nat 6; Step 1%nat; Step 1%nat; Step 1%nat; Step 1%nat;
       Step 1%nat; Step 1%nat;
       Step 0%nat; Step 0%nat; Step 0%nat; Step 0%nat; Step 0%nat;
       Step 0%nat; Step 0%nat; Step 0%nat; Step 0%nat;
       Step 0%nat; Step 0%nat; Step 0%nat; Step 0%nat; Step 0%nat;
       Step 0%nat; Step 0%nat; Step 0%nat]. }
  eexists _, _. split; [exact Hr|].
  split; [reflexivity|]. split; [reflexivity|]. split; [reflexivity|].
  split; [reflexivity|].
  exact (proj1 (single_worker_serves_in_order 3 _ _ Hr)).
Defined.
